(** * The item usecase layer of [internal/usecase/service.go]

    A shallow embedding of the usecase layer that sits between the HTTP
    handlers and the persistence repository: [GetAllItems], [GetItemByID],
    [CreateItem], [UpdateItem], [DeleteItem] and [GetCategorySummary].

    - Go strings are byte sequences: [string] (a list of 8-bit [ascii]),
      so that [String.length] is Go's [len].
    - [int64] and [int] values are [Z]; the only arithmetic in the file is
      the [total += count] of [GetCategorySummary], whose two's-complement
      wrap-around is written out in [int_add].
    - A [map[string]int] is a [gmap string Z].
    - A Go [(T, error)] return is a [result T].
    - The [ItemRepository] interface is a record of state transformers over
      an abstract store; every call the usecase makes on it is appended to a
      call log, so that "the repository is not called" is a statement about
      that log. *)

From Stdlib Require Import ZArith Ascii String List Lia.
From stdpp Require Import base option list gmap sets strings.

Local Open Scope Z_scope.

(** ** Errors *)

(** Go [error] values as far as this layer can tell them apart: the two
    sentinels of [internal/domain/errors], any other base error (for
    instance one made by the store's driver), and the wrapper [fmt.Errorf]
    builds for a format with one [%w] verb: its formatted text and the
    wrapped operand, which [Unwrap] gives back. *)
Inductive error : Type :=
  | ErrInvalidInput
  | ErrItemNotFound
  | errorString (s : string)
  | wrapError (msg : string) (err : error).

Global Instance error_eq_dec : EqDecision error.
Proof. solve_decision. Defined.

(** [errors.Unwrap]. *)
Definition Unwrap (err : error) : option error :=
  match err with
  | wrapError _ inner => Some inner
  | _ => None
  end.

(** [errors.Is err target]: [target] is [err] or is found along its
    [Unwrap] chain. *)
Fixpoint errors_Is (err target : error) : bool :=
  if decide (err = target) then true
  else match err with
       | wrapError _ inner => errors_Is inner target
       | _ => false
       end.

(** A Go [(T, error)] return: [Ok a] is [(a, nil)], [Err err] is [(zero, err)]
    with [err != nil]. *)
Inductive result (A : Type) : Type :=
  | Ok (a : A)
  | Err (err : error).
Arguments Ok {A} a.
Arguments Err {A} err.

(** ** The entity *)

(** Modelled from the spec: the struct [entity.Item] ([internal/domain/entity]
    is not part of the sources at hand). An integer ID, the five fields the
    constructor takes and the two timestamps the store maintains. The usecase
    layer itself only names [Name], [Brand] and [PurchasePrice]. *)
Record Item : Type := mkItem {
  ID : Z;
  Name : string;
  Category : string;
  Brand : string;
  PurchasePrice : Z;
  PurchaseDate : string;
  CreatedAt : Z;
  UpdatedAt : Z
}.

Global Instance Item_eq_dec : EqDecision Item.
Proof. solve_decision. Defined.

(** The three assignments [UpdateItem] makes through its pointer:
    [existingItem.Name = v], [existingItem.Brand = v],
    [existingItem.PurchasePrice = v]. *)
Definition set_Name (v : string) (it : Item) : Item :=
  mkItem (ID it) v (Category it) (Brand it) (PurchasePrice it)
         (PurchaseDate it) (CreatedAt it) (UpdatedAt it).

Definition set_Brand (v : string) (it : Item) : Item :=
  mkItem (ID it) (Name it) (Category it) v (PurchasePrice it)
         (PurchaseDate it) (CreatedAt it) (UpdatedAt it).

Definition set_PurchasePrice (v : Z) (it : Item) : Item :=
  mkItem (ID it) (Name it) (Category it) (Brand it) v
         (PurchaseDate it) (CreatedAt it) (UpdatedAt it).

(** What the usecase layer imports from [internal/domain/entity] and
    [internal/domain/errors] and does not define itself: the texts of the two
    sentinel errors, the predicate that recognises the repository's not-found
    signal, the validating constructor and the fixed list of categories. They
    are parameters of the whole development. *)
Class Domain : Type := {
  ErrInvalidInput_text : string;
  ErrItemNotFound_text : string;
  IsNotFoundError : error → bool;
  NewItem : string → string → string → Z → string → result Item;
  GetValidCategories : list string
}.

(** The [Error()] method. *)
Definition Error `{Domain} (err : error) : string :=
  match err with
  | ErrInvalidInput => ErrInvalidInput_text
  | ErrItemNotFound => ErrItemNotFound_text
  | errorString s => s
  | wrapError msg _ => msg
  end.

(** [fmt.Errorf(pre + "%w" + post, err)], [pre] and [post] being the already
    formatted text on either side of the verb. *)
Definition Errorf `{Domain} (pre : string) (err : error) (post : string) : error :=
  wrapError (pre ++ Error err ++ post) err.

(** ** Inputs and outputs of the usecase *)

Record CreateItemInput : Type := mkCreateItemInput {
  ciName : string;
  ciCategory : string;
  ciBrand : string;
  ciPurchasePrice : Z;
  ciPurchaseDate : string
}.

(** The pointer fields of [UpdateItemInput]: [None] is [nil]. *)
Record UpdateItemInput : Type := mkUpdateItemInput {
  uiName : option string;
  uiBrand : option string;
  uiPurchasePrice : option Z
}.

Record CategorySummary : Type := mkCategorySummary {
  Categories : gmap string Z;
  Total : Z
}.

(** ** Go's [int] *)

(** [int] is 64 bits wide on the platforms the service is built for. *)
Definition int_min : Z := - 2 ^ 63.
Definition int_max : Z := 2 ^ 63 - 1.

Definition int_wrap (z : Z) : Z := (z + 2 ^ 63) mod 2 ^ 64 - 2 ^ 63.

(** [x + y] on [int]. *)
Definition int_add (x y : Z) : Z := int_wrap (x + y).

(** ** The repository *)

(** The interface [ItemRepository] over a store of type [S]. The context
    argument is left out: cancellation is not modelled. A successful
    [FindByID], [Create] or [Update] returns a non-nil item, and the item
    [FindByID] hands out is the caller's own copy: assigning to its fields
    changes the store only through a later [Update]. *)
Record ItemRepository (S : Type) : Type := {
  FindAll : S → result (list Item) * S;
  FindByID : Z → S → result Item * S;
  Create : Item → S → result Item * S;
  Update : Item → S → result Item * S;
  Delete : Z → S → result unit * S;
  GetSummaryByCategory : S → result (gmap string Z) * S
}.
Arguments FindAll {S} _ _.
Arguments FindByID {S} _ _ _.
Arguments Create {S} _ _ _.
Arguments Update {S} _ _ _.
Arguments Delete {S} _ _ _.
Arguments GetSummaryByCategory {S} _ _.

(** One entry of the call log per method call, with its arguments. *)
Inductive Call : Type :=
  | CallFindAll
  | CallFindByID (id : Z)
  | CallCreate (item : Item)
  | CallUpdate (item : Item)
  | CallDelete (id : Z)
  | CallGetSummaryByCategory.

Global Instance Call_eq_dec : EqDecision Call.
Proof. solve_decision. Defined.

(** ** The usecase monad: store, call log and early return *)

(** A computation runs on the store and the log of the calls made so far, and
    ends either normally or by returning an error. *)
Definition usecase (S A : Type) : Type :=
  S * list Call → result A * (S * list Call).

Definition ret {S A} (a : A) : usecase S A := λ w, (Ok a, w).

(** [return nil, err]. *)
Definition fail {S A} (err : error) : usecase S A := λ w, (Err err, w).

Definition bind {S A B} (m : usecase S A) (k : A → usecase S B) : usecase S B :=
  λ w, match m w with
       | (Ok a, w') => k a w'
       | (Err err, w') => (Err err, w')
       end.

Global Instance usecase_ret {S} : MRet (usecase S) := @ret S.
Global Instance usecase_bind {S} : MBind (usecase S) := λ A B k m, bind m k.

(** A call of a repository method: it acts on the store, is logged, and hands
    its [(value, err)] pair to the caller. *)
Definition call {S A} (c : Call) (method : S → result A * S) : usecase S (result A) :=
  λ '(s, log), let '(r, s') := method s in (Ok r, (s', log ++ [c])).

(** Running an operation from a store with an empty log. *)
Definition run {S A} (m : usecase S A) (s : S) : result A * (S * list Call) :=
  m (s, []).

Definition outcome {S A} (m : usecase S A) (s : S) : result A := (run m s).1.
Definition calls {S A} (m : usecase S A) (s : S) : list Call := (run m s).2.2.
Definition final_store {S A} (m : usecase S A) (s : S) : S := (run m s).2.1.

(** ** The usecase *)

Record itemUsecase (S : Type) : Type := { itemRepo : ItemRepository S }.
Arguments itemRepo {S} _.

Definition NewItemUsecase {S} (itemRepo : ItemRepository S) : itemUsecase S :=
  {| itemRepo := itemRepo |}.

Section Usecase.
Context `{Domain} {S : Type}.
Implicit Types (u : itemUsecase S) (id : Z).

Definition GetAllItems u : usecase S (list Item) :=
  r ← call CallFindAll (FindAll (itemRepo u));
  match r with
  | Err err => fail (Errorf "failed to retrieve items: " err "")
  | Ok items => mret items
  end.

Definition GetItemByID u id : usecase S Item :=
  if id <=? 0 then fail ErrInvalidInput
  else
    r ← call (CallFindByID id) (FindByID (itemRepo u) id);
    match r with
    | Err err =>
        if IsNotFoundError err then fail ErrItemNotFound
        else fail (Errorf "failed to retrieve item: " err "")
    | Ok item => mret item
    end.

Definition CreateItem u (input : CreateItemInput) : usecase S Item :=
  match NewItem (ciName input) (ciCategory input) (ciBrand input)
                (ciPurchasePrice input) (ciPurchaseDate input) with
  | Err err => fail (Errorf "" ErrInvalidInput (": " ++ Error err))
  | Ok item =>
      r ← call (CallCreate item) (Create (itemRepo u) item);
      match r with
      | Err err => fail (Errorf "failed to create item: " err "")
      | Ok createdItem => mret createdItem
      end
  end.

Definition UpdateItem u id (input : UpdateItemInput) : usecase S Item :=
  if id <=? 0 then fail ErrInvalidInput
  else
    r ← call (CallFindByID id) (FindByID (itemRepo u) id);
    match r with
    | Err err =>
        if IsNotFoundError err then fail ErrItemNotFound
        else fail (Errorf "failed to retrieve item for update: " err "")
    | Ok existingItem =>
        existingItem ←
          match uiName input with
          | Some name =>
              if (String.length name =? 0)%nat || (100 <? String.length name)%nat
              then fail (Errorf "" ErrInvalidInput
                           ": name must be between 1 and 100 characters")
              else mret (set_Name name existingItem)
          | None => mret existingItem
          end;
        existingItem ←
          match uiBrand input with
          | Some brand =>
              if (String.length brand =? 0)%nat || (100 <? String.length brand)%nat
              then fail (Errorf "" ErrInvalidInput
                           ": brand must be between 1 and 100 characters")
              else mret (set_Brand brand existingItem)
          | None => mret existingItem
          end;
        existingItem ←
          match uiPurchasePrice input with
          | Some price =>
              if price <? 0
              then fail (Errorf "" ErrInvalidInput
                           ": purchase_price must be 0 or greater")
              else mret (set_PurchasePrice price existingItem)
          | None => mret existingItem
          end;
        r ← call (CallUpdate existingItem) (Update (itemRepo u) existingItem);
        match r with
        | Err err => fail (Errorf "failed to update item: " err "")
        | Ok updatedItem => mret updatedItem
        end
    end.

Definition DeleteItem u id : usecase S unit :=
  if id <=? 0 then fail ErrInvalidInput
  else
    r ← call (CallFindByID id) (FindByID (itemRepo u) id);
    match r with
    | Err err =>
        if IsNotFoundError err then fail ErrItemNotFound
        else fail (Errorf "failed to check item existence: " err "")
    | Ok _ =>
        r ← call (CallDelete id) (Delete (itemRepo u) id);
        match r with
        | Err err => fail (Errorf "failed to delete item: " err "")
        | Ok _ => mret ()
        end
    end.

(** The first loop of [GetCategorySummary], over the entries of the map in
    the order the [range] statement visits them. *)
Definition sum_counts (entries : list (string * Z)) : Z :=
  foldl (λ total entry, int_add total entry.2) 0 entries.

(** The second loop, over the valid categories. *)
Definition fill_summary (categoryCounts : gmap string Z)
    (categories : list string) : gmap string Z :=
  foldl (λ summary category,
           match categoryCounts !! category with
           | Some count => <[category := count]> summary
           | None => <[category := 0]> summary
           end) ∅ categories.

Definition GetCategorySummary u : usecase S CategorySummary :=
  r ← call CallGetSummaryByCategory (GetSummaryByCategory (itemRepo u));
  match r with
  | Err err => fail (Errorf "failed to get category summary: " err "")
  | Ok categoryCounts =>
      let total := sum_counts (map_to_list categoryCounts) in
      let summary := fill_summary categoryCounts GetValidCategories in
      mret {| Categories := summary; Total := total |}
  end.
End Usecase.

(** ** Reference notions the properties are stated with *)

(** The exact sum of the counts of a map, as an unbounded integer. *)
Definition map_sum (m : gmap string Z) : Z :=
  map_fold (λ _ count acc, count + acc) 0 m.

(** The number of characters of a well-formed UTF-8 string: every byte but
    the continuation bytes [10xxxxxx] starts one. *)
Definition is_continuation_byte (b : ascii) : bool :=
  let n := N_of_ascii b in ((128 <=? n) && (n <? 192))%N.

Fixpoint utf8_chars (s : string) : nat :=
  match s with
  | EmptyString => 0%nat
  | String b rest =>
      if is_continuation_byte b then utf8_chars rest
      else Datatypes.S (utf8_chars rest)
  end.

(** The rule [UpdateItem] applies to a present [Name] or [Brand]. *)
Definition valid_text (s : string) : Prop :=
  (1 ≤ String.length s ≤ 100)%nat.

(** Every present field of an update satisfies its rule. *)
Definition valid_update (input : UpdateItemInput) : Prop :=
  from_option valid_text True (uiName input) ∧
  from_option valid_text True (uiBrand input) ∧
  from_option (λ price, 0 ≤ price) True (uiPurchasePrice input).

(** The three errors [UpdateItem] builds for a field that breaks its rule. *)
Definition name_error `{Domain} : error :=
  Errorf "" ErrInvalidInput ": name must be between 1 and 100 characters".
Definition brand_error `{Domain} : error :=
  Errorf "" ErrInvalidInput ": brand must be between 1 and 100 characters".
Definition price_error `{Domain} : error :=
  Errorf "" ErrInvalidInput ": purchase_price must be 0 or greater".

(** What "translated to the domain kind, never leaked" asks of a returned
    value when the store signalled not-found with [raw]: the operation returns
    the domain error [ErrItemNotFound], and [raw] is neither what is returned
    nor anywhere along its [Unwrap] chain. *)
Definition translated_not_found {A : Type} (raw : error) (r : result A) : Prop :=
  r = Err ErrItemNotFound ∧ ∀ err, r = Err err → errors_Is err raw = false.

(** The first rule an update breaks, in the order the code tests them. *)
Definition text_violation (field : option string) (err : error) : option error :=
  match field with
  | Some v =>
      if (String.length v =? 0)%nat || (100 <? String.length v)%nat
      then Some err else None
  | None => None
  end.

Definition price_violation `{Domain} (field : option Z) : option error :=
  match field with
  | Some price => if price <? 0 then Some price_error else None
  | None => None
  end.

Definition first_violation `{Domain} (input : UpdateItemInput) : option error :=
  match text_violation (uiName input) name_error with
  | Some err => Some err
  | None =>
      match text_violation (uiBrand input) brand_error with
      | Some err => Some err
      | None => price_violation (uiPurchasePrice input)
      end
  end.

(** An update with every field absent. *)
Definition emptyUpdate : UpdateItemInput := mkUpdateItemInput None None None.

(** The existence lookup of [GetItemByID], [UpdateItem] and [DeleteItem]
    signals not-found. *)
Definition lookup_not_found `{Domain} {S : Type} (u : itemUsecase S) (id : Z)
    (s : S) : Prop :=
  ∃ err s', FindByID (itemRepo u) id s = (Err err, s') ∧ IsNotFoundError err = true.

(** What an accepted update makes of the fetched item. *)
Definition apply_update (input : UpdateItemInput) (it : Item) : Item :=
  mkItem (ID it)
         (default (Name it) (uiName input))
         (Category it)
         (default (Brand it) (uiBrand input))
         (default (PurchasePrice it) (uiPurchasePrice input))
         (PurchaseDate it) (CreatedAt it) (UpdatedAt it).

(** A repository that behaves as a finite map from ids to items, seen through
    [items]: a lookup finds what the map holds and changes nothing, signals
    not-found for an id the map does not hold, and deleting a held id removes
    exactly that id. *)
Record MapLike `{Domain} {S : Type} (R : ItemRepository S)
    (items : S → gmap Z Item) : Prop := {
  maplike_find_some : ∀ s id it,
    items s !! id = Some it →
    ∃ s', FindByID R id s = (Ok it, s') ∧ items s' = items s;
  maplike_find_none : ∀ s id,
    items s !! id = None →
    ∃ err s', FindByID R id s = (Err err, s') ∧ IsNotFoundError err = true
              ∧ items s' = items s;
  maplike_delete : ∀ s id it,
    items s !! id = Some it →
    ∃ s', Delete R id s = (Ok (), s') ∧ items s' = delete id (items s)
}.

(** ** Concrete instances, used to run the operations *)

(** The valid categories of the spec's worked example. *)
Definition exampleCategories : list string := ["electronics"; "clothing"]%string.

(** Modelled from the spec: [entity.NewItem], which is not part of the sources
    at hand. It enforces Name and Brand of 1 to 100 bytes, a Category of the
    fixed set and a PurchasePrice of at least 0; the date is taken as given. *)
Definition exampleNewItem (name category brand : string) (price : Z)
    (date : string) : result Item :=
  if (String.length name =? 0)%nat || (100 <? String.length name)%nat
  then Err (errorString "name is required and must be 100 characters or less")
  else if negb (bool_decide (category ∈ exampleCategories))
  then Err (errorString "category is invalid")
  else if (String.length brand =? 0)%nat || (100 <? String.length brand)%nat
  then Err (errorString "brand is required and must be 100 characters or less")
  else if price <? 0
  then Err (errorString "purchase_price must be 0 or greater")
  else Ok (mkItem 0 name category brand price date 0 0).

#[local] Instance exampleDomain : Domain := {|
  ErrInvalidInput_text := "invalid input";
  ErrItemNotFound_text := "item not found";
  IsNotFoundError := λ err, errors_Is err ErrItemNotFound;
  NewItem := exampleNewItem;
  GetValidCategories := exampleCategories
|}.

(** An in-memory repository: the store is the map itself. Not-found is
    signalled with [notFound]. *)
Definition next_id (store : gmap Z Item) : Z :=
  1 + map_fold (λ id _ acc, Z.max id acc) 0 store.

Definition count_category (store : gmap Z Item) : gmap string Z :=
  map_fold (λ _ item acc,
              <[Category item := 1 + default 0 (acc !! Category item)]> acc)
           ∅ store.

Definition memRepo (notFound : error) : ItemRepository (gmap Z Item) := {|
  FindAll := λ store, (Ok (map snd (map_to_list store)), store);
  FindByID := λ id store,
    match store !! id with
    | Some item => (Ok item, store)
    | None => (Err notFound, store)
    end;
  Create := λ item store,
    let created := mkItem (next_id store) (Name item) (Category item)
                     (Brand item) (PurchasePrice item) (PurchaseDate item)
                     (CreatedAt item) (UpdatedAt item) in
    (Ok created, <[ID created := created]> store);
  Update := λ item store,
    match store !! ID item with
    | Some _ => (Ok item, <[ID item := item]> store)
    | None => (Err notFound, store)
    end;
  Delete := λ id store,
    match store !! id with
    | Some _ => (Ok (), delete id store)
    | None => (Err notFound, store)
    end;
  GetSummaryByCategory := λ store, (Ok (count_category store), store)
|}.

(** A repository whose every call fails with the same error, and one that
    answers a summary request with fixed counts. *)
Definition failingRepo (err : error) : ItemRepository unit := {|
  FindAll := λ s, (Err err, s);
  FindByID := λ _ s, (Err err, s);
  Create := λ _ s, (Err err, s);
  Update := λ _ s, (Err err, s);
  Delete := λ _ s, (Err err, s);
  GetSummaryByCategory := λ s, (Err err, s)
|}.

Definition countsRepo (counts : gmap string Z) : ItemRepository unit := {|
  FindAll := λ s, (Ok [], s);
  FindByID := λ _ s, (Err ErrItemNotFound, s);
  Create := λ item s, (Ok item, s);
  Update := λ item s, (Ok item, s);
  Delete := λ _ s, (Ok (), s);
  GetSummaryByCategory := λ s, (Ok counts, s)
|}.

(** A repository that finds [item] under every id and then fails every
    mutation with [err]: the item was removed between the existence check and
    the mutation. *)
Definition vanishingRepo (item : Item) (err : error) : ItemRepository unit := {|
  FindAll := λ s, (Ok [item], s);
  FindByID := λ _ s, (Ok item, s);
  Create := λ _ s, (Err err, s);
  Update := λ _ s, (Err err, s);
  Delete := λ _ s, (Err err, s);
  GetSummaryByCategory := λ s, (Ok ∅, s)
|}.

(** A store's own not-found error: it annotates the domain sentinel, so that
    [errors.Is] recognises it. *)
Definition rawNotFound : error :=
  wrapError "item 7: item not found" ErrItemNotFound.

Definition sampleItem : Item :=
  mkItem 7 "camera" "electronics" "acme" 1200 "2024-01-15" 1700000000 1700000000.

(** 34 three-byte characters: 102 bytes. *)
Definition longName : string :=
  Eval cbv in
    (fix rep (n : nat) : string :=
       match n with
       | O => EmptyString
       | Datatypes.S n' =>
           String (ascii_of_nat 227)
             (String (ascii_of_nat 129) (String (ascii_of_nat 130) (rep n')))
       end) 34%nat.

(** ** Further reference notions *)

(** A call that changes what the store holds. *)
Definition is_mutation (c : Call) : bool :=
  match c with
  | CallCreate _ | CallUpdate _ | CallDelete _ => true
  | _ => false
  end.

(** The rules of [UpdateItem] on the three fields it can assign, as a property
    of an item. *)
Definition valid_item (it : Item) : Prop :=
  valid_text (Name it) ∧ valid_text (Brand it) ∧ 0 ≤ PurchasePrice it.

(** The update is refused at the first field it carries: the code returns
    before any assignment to the fetched item. *)
Definition refused_before_assignment (input : UpdateItemInput) : Prop :=
  match uiName input, uiBrand input, uiPurchasePrice input with
  | Some name, _, _ => ¬ valid_text name
  | None, Some brand, _ => ¬ valid_text brand
  | None, None, Some price => price < 0
  | None, None, None => False
  end.

(** Every item is held under its own ID. *)
Definition well_keyed (m : gmap Z Item) : Prop :=
  ∀ id it, m !! id = Some it → ID it = id.

(** A map-like repository whose [Update] and [Create] behave as a store's do:
    updating a held item replaces what is held under its ID by the item the
    call returns, and creating stores the returned item under a positive ID
    that was free. *)
Record StoreLike `{Domain} {S : Type} (R : ItemRepository S)
    (items : S → gmap Z Item) : Prop := {
  storelike_maplike : MapLike R items;
  storelike_update : ∀ s it old,
    items s !! ID it = Some old →
    ∃ stored s', Update R it s = (Ok stored, s')
                 ∧ ID stored = ID it
                 ∧ items s' = <[ID it := stored]> (items s);
  storelike_create : ∀ s it,
    ∃ created s', Create R it s = (Ok created, s')
                  ∧ 0 < ID created
                  ∧ items s !! ID created = None
                  ∧ items s' = <[ID created := created]> (items s)
}.

(** * Properties *)

(** Unfolds one run of an operation down to the repository's answers. *)
Ltac run_usecase :=
  unfold outcome, calls, final_store, run,
    GetAllItems, GetItemByID, CreateItem, UpdateItem, DeleteItem,
    GetCategorySummary, NewItemUsecase;
  unfold mbind, usecase_bind, bind, mret, usecase_ret, ret, fail, call;
  simpl.

Section Identifiers.
Context `{Domain} {S : Type}.
Implicit Types (u : itemUsecase S) (id : Z) (s : S).

Lemma GetItemByID_invalid u id s :
  id ≤ 0 → run (GetItemByID u id) s = (Err ErrInvalidInput, (s, [])).
Proof. intros Hid. run_usecase. destruct (Z.leb_spec id 0); [done | lia]. Qed.

Lemma UpdateItem_invalid u id input s :
  id ≤ 0 → run (UpdateItem u id input) s = (Err ErrInvalidInput, (s, [])).
Proof. intros Hid. run_usecase. destruct (Z.leb_spec id 0); [done | lia]. Qed.

Lemma DeleteItem_invalid u id s :
  id ≤ 0 → run (DeleteItem u id) s = (Err ErrInvalidInput, (s, [])).
Proof. intros Hid. run_usecase. destruct (Z.leb_spec id 0); [done | lia]. Qed.
End Identifiers.

(** C4. For every id ≤ 0, [GetItemByID], [UpdateItem] and [DeleteItem] return
    the error [ErrInvalidInput] and make no repository call at all: the call
    log is empty (so [FindByID] is not invoked) and the store is untouched. *)
Theorem invalid_id_rejected_before_repository
    `{Domain} {S : Type} (u : itemUsecase S) (id : Z) (s : S) :
  id ≤ 0 →
  (outcome (GetItemByID u id) s = Err ErrInvalidInput
   ∧ calls (GetItemByID u id) s = []
   ∧ final_store (GetItemByID u id) s = s)
  ∧ (∀ input,
       outcome (UpdateItem u id input) s = Err ErrInvalidInput
       ∧ calls (UpdateItem u id input) s = []
       ∧ final_store (UpdateItem u id input) s = s)
  ∧ (outcome (DeleteItem u id) s = Err ErrInvalidInput
     ∧ calls (DeleteItem u id) s = []
     ∧ final_store (DeleteItem u id) s = s).
Proof.
  intros Hid. unfold outcome, calls, final_store.
  split; [| split; [intros input |]].
  - by rewrite GetItemByID_invalid.
  - by rewrite UpdateItem_invalid.
  - by rewrite DeleteItem_invalid.
Qed.

Lemma invalid_id_rejected_before_repository_witness :
  let u := NewItemUsecase (memRepo ErrItemNotFound) in
  let s : gmap Z Item := {[ 7 := sampleItem ]} in
  -3 ≤ 0
  ∧ (outcome (GetItemByID u (-3)) s = Err ErrInvalidInput
     ∧ calls (GetItemByID u (-3)) s = []
     ∧ final_store (GetItemByID u (-3)) s = s)
  ∧ (∀ input,
       outcome (UpdateItem u (-3) input) s = Err ErrInvalidInput
       ∧ calls (UpdateItem u (-3) input) s = []
       ∧ final_store (UpdateItem u (-3) input) s = s)
  ∧ (outcome (DeleteItem u (-3)) s = Err ErrInvalidInput
     ∧ calls (DeleteItem u (-3)) s = []
     ∧ final_store (DeleteItem u (-3)) s = s).
Proof.
  intros u s.
  assert (Hid : -3 ≤ 0) by lia.
  split; [exact Hid |].
  exact (invalid_id_rejected_before_repository (H := exampleDomain) u (-3) s Hid).
Defined.

(** ** The existence lookup and what follows it *)

Section Lookup.
Context `{Domain} {S : Type}.
Implicit Types (u : itemUsecase S) (id : Z) (s : S) (it : Item).

Lemma GetItemByID_lookup_failed u id s err s' :
  0 < id → FindByID (itemRepo u) id s = (Err err, s') →
  run (GetItemByID u id) s =
    (Err (if IsNotFoundError err then ErrItemNotFound
          else Errorf "failed to retrieve item: " err ""),
     (s', [CallFindByID id])).
Proof.
  intros Hid Hfind. run_usecase.
  destruct (Z.leb_spec id 0); [lia |].
  rewrite Hfind. by destruct (IsNotFoundError err).
Qed.

Lemma GetItemByID_found u id s it s' :
  0 < id → FindByID (itemRepo u) id s = (Ok it, s') →
  run (GetItemByID u id) s = (Ok it, (s', [CallFindByID id])).
Proof.
  intros Hid Hfind. run_usecase.
  destruct (Z.leb_spec id 0); [lia |]. by rewrite Hfind.
Qed.

Lemma UpdateItem_lookup_failed u id input s err s' :
  0 < id → FindByID (itemRepo u) id s = (Err err, s') →
  run (UpdateItem u id input) s =
    (Err (if IsNotFoundError err then ErrItemNotFound
          else Errorf "failed to retrieve item for update: " err ""),
     (s', [CallFindByID id])).
Proof.
  intros Hid Hfind. run_usecase.
  destruct (Z.leb_spec id 0); [lia |].
  rewrite Hfind. by destruct (IsNotFoundError err).
Qed.

Lemma DeleteItem_lookup_failed u id s err s' :
  0 < id → FindByID (itemRepo u) id s = (Err err, s') →
  run (DeleteItem u id) s =
    (Err (if IsNotFoundError err then ErrItemNotFound
          else Errorf "failed to check item existence: " err ""),
     (s', [CallFindByID id])).
Proof.
  intros Hid Hfind. run_usecase.
  destruct (Z.leb_spec id 0); [lia |].
  rewrite Hfind. by destruct (IsNotFoundError err).
Qed.

Lemma DeleteItem_found u id s it s1 :
  0 < id → FindByID (itemRepo u) id s = (Ok it, s1) →
  run (DeleteItem u id) s =
    (match (Delete (itemRepo u) id s1).1 with
     | Err err => Err (Errorf "failed to delete item: " err "")
     | Ok _ => Ok ()
     end,
     ((Delete (itemRepo u) id s1).2, [CallFindByID id; CallDelete id])).
Proof.
  intros Hid Hfind. run_usecase.
  destruct (Z.leb_spec id 0); [lia |]. rewrite Hfind.
  by destruct (Delete (itemRepo u) id s1) as [[[]|err] s2].
Qed.

(** The text rule as the code tests it. *)
Lemma valid_text_test (v : string) :
  (String.length v =? 0)%nat || (100 <? String.length v)%nat = false
  ↔ valid_text v.
Proof.
  unfold valid_text. rewrite orb_false_iff.
  rewrite Nat.eqb_neq, Nat.ltb_ge. lia.
Qed.

Lemma invalid_text_test (v : string) :
  (String.length v =? 0)%nat || (100 <? String.length v)%nat = true
  ↔ ¬ valid_text v.
Proof.
  rewrite <- valid_text_test.
  by destruct ((String.length v =? 0)%nat || (100 <? String.length v)%nat).
Qed.

Lemma first_violation_None input :
  first_violation input = None ↔ valid_update input.
Proof.
  unfold first_violation, text_violation, price_violation, valid_update.
  destruct input as [[name|] [brand|] [price|]]; simpl;
    repeat match goal with
      | |- context [(String.length ?v =? 0)%nat || _] =>
          let E := fresh "E" in
          destruct ((String.length v =? 0)%nat || (100 <? String.length v)%nat)
            eqn:E;
          [apply invalid_text_test in E | apply valid_text_test in E]
      | |- context [?p <? 0] => destruct (Z.ltb_spec p 0)
      end; simpl; (split; [try done; tauto | try done; intros; try lia; tauto]).
Qed.

Lemma first_violation_invalid_input input err :
  first_violation input = Some err →
  err ∈ [name_error; brand_error; price_error].
Proof.
  unfold first_violation, text_violation, price_violation.
  destruct input as [[name|] [brand|] [price|]]; simpl;
    repeat match goal with
      | |- context [(String.length ?v =? 0)%nat || _] =>
          destruct ((String.length v =? 0)%nat || (100 <? String.length v)%nat)
      | |- context [?p <? 0] => destruct (p <? 0)
      end; simpl; intros [= <-] || (intros [=]); set_solver.
Qed.

(** After a successful lookup, [UpdateItem] stops at the first broken rule
    without a further call. *)
Lemma UpdateItem_rejected u id input s it s1 err :
  0 < id → FindByID (itemRepo u) id s = (Ok it, s1) →
  first_violation input = Some err →
  run (UpdateItem u id input) s = (Err err, (s1, [CallFindByID id])).
Proof.
  intros Hid Hfind. run_usecase.
  destruct (Z.leb_spec id 0); [lia |]. rewrite Hfind.
  unfold first_violation, text_violation, price_violation.
  destruct input as [[name|] [brand|] [price|]]; simpl;
    repeat match goal with
      | |- context [(String.length ?v =? 0)%nat || _] =>
          destruct ((String.length v =? 0)%nat || (100 <? String.length v)%nat)
      | |- context [?p <? 0] => destruct (p <? 0)
      end; simpl; intros [=]; by subst.
Qed.

(** With every present field within its rule, [UpdateItem] calls [Update]
    with the fetched item in which exactly the present fields are replaced,
    and returns what [Update] returns, an error wrapped. *)
Lemma UpdateItem_accepted u id input s it s1 :
  0 < id → FindByID (itemRepo u) id s = (Ok it, s1) →
  valid_update input →
  run (UpdateItem u id input) s =
    (match (Update (itemRepo u) (apply_update input it) s1).1 with
     | Err err => Err (Errorf "failed to update item: " err "")
     | Ok updatedItem => Ok updatedItem
     end,
     ((Update (itemRepo u) (apply_update input it) s1).2,
      [CallFindByID id; CallUpdate (apply_update input it)])).
Proof.
  intros Hid Hfind Hvalid. apply first_violation_None in Hvalid.
  revert Hvalid. run_usecase.
  destruct (Z.leb_spec id 0); [lia |]. rewrite Hfind.
  unfold first_violation, text_violation, price_violation, apply_update.
  destruct it, input as [[name|] [brand|] [price|]]; simpl;
    repeat match goal with
      | |- context [(String.length ?v =? 0)%nat || _] =>
          destruct ((String.length v =? 0)%nat || (100 <? String.length v)%nat)
      | |- context [?p <? 0] => destruct (p <? 0)
      end; simpl; intros [=];
    unfold set_Name, set_Brand, set_PurchasePrice; simpl;
    match goal with
    | |- context [Update ?r ?i ?s] => by destruct (Update r i s) as [[?|?] ?]
    end.
Qed.
End Lookup.

Lemma append_cons (c : ascii) (t v : string) :
  String.append (String c t) v = String c (String.append t v).
Proof. reflexivity. Qed.

Lemma append_empty_r (t : string) : String.append t "" = t.
Proof. induction t as [|c t IH]; [done | by rewrite append_cons, IH]. Qed.

Lemma length_append (t v : string) :
  String.length (String.append t v) = (String.length t + String.length v)%nat.
Proof.
  induction t as [|c t IH]; [done |]. rewrite append_cons. simpl. by rewrite IH.
Qed.

Lemma Errorf_context `{Domain} (pre : string) (err : error) :
  Errorf pre err "" = wrapError (pre ++ Error err) err.
Proof. unfold Errorf. by rewrite append_empty_r. Qed.

(** C5. For every id > 0, [GetItemByID], [UpdateItem] and [DeleteItem] return
    the error [ErrItemNotFound] if and only if the [FindByID] lookup for that
    id signals not-found; any other failure of [FindByID] is returned wrapped
    with the operation's context message, the store's error as the wrapped
    cause, and so not as [ErrItemNotFound]. *)
Theorem not_found_iff_lookup_not_found
    `{Domain} {S : Type} (u : itemUsecase S) (id : Z) (s : S) :
  0 < id →
  (outcome (GetItemByID u id) s = Err ErrItemNotFound ↔ lookup_not_found u id s)
  ∧ (∀ input,
       outcome (UpdateItem u id input) s = Err ErrItemNotFound
       ↔ lookup_not_found u id s)
  ∧ (outcome (DeleteItem u id) s = Err ErrItemNotFound ↔ lookup_not_found u id s)
  ∧ (∀ err s',
       FindByID (itemRepo u) id s = (Err err, s') →
       IsNotFoundError err = false →
       outcome (GetItemByID u id) s
         = Err (wrapError ("failed to retrieve item: " ++ Error err) err)
       ∧ (∀ input,
            outcome (UpdateItem u id input) s
              = Err (wrapError ("failed to retrieve item for update: " ++ Error err) err))
       ∧ outcome (DeleteItem u id) s
           = Err (wrapError ("failed to check item existence: " ++ Error err) err)
       ∧ ∀ msg, wrapError msg err ≠ ErrItemNotFound).
Proof.
  intros Hid.
  assert (Hsignal : ∀ err s',
    FindByID (itemRepo u) id s = (Err err, s') →
    IsNotFoundError err = true → lookup_not_found u id s)
    by (intros err s' ? ?; by exists err, s').
  unfold outcome. split; [split | split; [intros input; split | split; [split |]]].
  - destruct (FindByID (itemRepo u) id s) as [[it|err] s1] eqn:Hfind.
    + by rewrite (GetItemByID_found _ _ _ _ _ Hid Hfind).
    + rewrite (GetItemByID_lookup_failed _ _ _ _ _ Hid Hfind); simpl.
      destruct (IsNotFoundError err) eqn:Hnf; [eauto | done].
  - intros (err & s' & Hfind & Hnf).
    by rewrite (GetItemByID_lookup_failed _ _ _ _ _ Hid Hfind), Hnf.
  - destruct (FindByID (itemRepo u) id s) as [[it|err] s1] eqn:Hfind.
    + destruct (first_violation input) as [bad|] eqn:Hbad.
      * rewrite (UpdateItem_rejected _ _ _ _ _ _ _ Hid Hfind Hbad); simpl.
        apply first_violation_invalid_input in Hbad.
        intros [= ->].
        repeat (apply elem_of_cons in Hbad as [Hbad|Hbad]; [discriminate |]).
        by apply elem_of_nil in Hbad.
      * apply first_violation_None in Hbad.
        rewrite (UpdateItem_accepted _ _ _ _ _ _ Hid Hfind Hbad); simpl.
        by destruct (Update _ _ _) as [[?|?] ?].
    + rewrite (UpdateItem_lookup_failed _ _ _ _ _ _ Hid Hfind); simpl.
      destruct (IsNotFoundError err) eqn:Hnf; [eauto | done].
  - intros (err & s' & Hfind & Hnf).
    by rewrite (UpdateItem_lookup_failed _ _ _ _ _ _ Hid Hfind), Hnf.
  - destruct (FindByID (itemRepo u) id s) as [[it|err] s1] eqn:Hfind.
    + rewrite (DeleteItem_found _ _ _ _ _ Hid Hfind); simpl.
      by destruct (Delete _ _ _) as [[?|?] ?].
    + rewrite (DeleteItem_lookup_failed _ _ _ _ _ Hid Hfind); simpl.
      destruct (IsNotFoundError err) eqn:Hnf; [eauto | done].
  - intros (err & s' & Hfind & Hnf).
    by rewrite (DeleteItem_lookup_failed _ _ _ _ _ Hid Hfind), Hnf.
  - intros err s' Hfind Hnf. repeat split; try done; try intros input.
    + rewrite (GetItemByID_lookup_failed _ _ _ _ _ Hid Hfind), Hnf; simpl.
      by rewrite Errorf_context.
    + rewrite (UpdateItem_lookup_failed _ _ _ _ _ _ Hid Hfind), Hnf; simpl.
      by rewrite Errorf_context.
    + rewrite (DeleteItem_lookup_failed _ _ _ _ _ Hid Hfind), Hnf; simpl.
      by rewrite Errorf_context.
Qed.

Lemma not_found_iff_lookup_not_found_witness :
  let u := NewItemUsecase (memRepo ErrItemNotFound) in
  let s : gmap Z Item := {[ 7 := sampleItem ]} in
  0 < 8
  ∧ (outcome (GetItemByID u 8) s = Err ErrItemNotFound ↔ lookup_not_found u 8 s)
  ∧ (∀ input,
       outcome (UpdateItem u 8 input) s = Err ErrItemNotFound
       ↔ lookup_not_found u 8 s)
  ∧ (outcome (DeleteItem u 8) s = Err ErrItemNotFound ↔ lookup_not_found u 8 s)
  ∧ outcome (DeleteItem u 8) s = Err ErrItemNotFound
  ∧ outcome (DeleteItem u 7) s = Ok ().
Proof.
  intros u s.
  assert (Hid : 0 < 8) by lia.
  pose proof (not_found_iff_lookup_not_found (H := exampleDomain) u 8 s Hid)
    as (Hget & Hupdate & Hdelete & _).
  split; [exact Hid |]. split; [exact Hget |]. split; [exact Hupdate |].
  split; [exact Hdelete |]. split; reflexivity.
Defined.

(** ** Validation errors *)

Section ValidationErrors.
Context `{Domain}.

Lemma errors_Is_wrapped_sentinel (msg : string) :
  errors_Is (wrapError msg ErrInvalidInput) ErrInvalidInput = true.
Proof. reflexivity. Qed.

Lemma validation_error_kind (err : error) :
  err ∈ [name_error; brand_error; price_error] →
  Unwrap err = Some ErrInvalidInput ∧ errors_Is err ErrInvalidInput = true.
Proof.
  intros Hin.
  repeat (apply elem_of_cons in Hin as [->|Hin]; [done |]).
  by apply elem_of_nil in Hin.
Qed.

Lemma invalid_update_violation (input : UpdateItemInput) :
  ¬ valid_update input → ∃ err, first_violation input = Some err.
Proof.
  intros Hinvalid. destruct (first_violation input) as [err|] eqn:Hfirst.
  - by exists err.
  - by apply first_violation_None in Hfirst.
Qed.

Lemma apply_update_empty (it : Item) : apply_update emptyUpdate it = it.
Proof. by destruct it. Qed.

Lemma valid_update_empty : valid_update emptyUpdate.
Proof. by repeat split. Qed.
End ValidationErrors.

(** C6. For every id > 0 whose item exists, [UpdateItem] with a present field
    that breaks its rule (a negative PurchasePrice, a Name or Brand of length 0
    or above 100) returns an error that wraps [ErrInvalidInput] and calls
    nothing after the lookup, so never [Update]; with every field absent it
    calls [Update] with the fetched item, every field unchanged. *)
Theorem UpdateItem_validates_present_fields
    `{Domain} {S : Type} (u : itemUsecase S) (id : Z) (s s1 : S) (it : Item) :
  0 < id →
  FindByID (itemRepo u) id s = (Ok it, s1) →
  (∀ input,
     ¬ valid_update input →
     ∃ err,
       outcome (UpdateItem u id input) s = Err err
       ∧ Unwrap err = Some ErrInvalidInput
       ∧ errors_Is err ErrInvalidInput = true
       ∧ calls (UpdateItem u id input) s = [CallFindByID id]
       ∧ ∀ item, CallUpdate item ∉ calls (UpdateItem u id input) s)
  ∧ calls (UpdateItem u id emptyUpdate) s = [CallFindByID id; CallUpdate it]
  ∧ outcome (UpdateItem u id emptyUpdate) s =
      match (Update (itemRepo u) it s1).1 with
      | Err err => Err (wrapError ("failed to update item: " ++ Error err) err)
      | Ok updatedItem => Ok updatedItem
      end.
Proof.
  intros Hid Hfind. unfold outcome, calls. split; [| split].
  - intros input [err Hfirst]%invalid_update_violation.
    exists err. rewrite (UpdateItem_rejected _ _ _ _ _ _ _ Hid Hfind Hfirst).
    apply first_violation_invalid_input, validation_error_kind in Hfirst
      as [Hunwrap His].
    simpl. repeat split; try done.
    intros item [=]%list_elem_of_singleton.
  - rewrite (UpdateItem_accepted _ _ _ _ _ _ Hid Hfind valid_update_empty).
    simpl. by rewrite apply_update_empty.
  - rewrite (UpdateItem_accepted _ _ _ _ _ _ Hid Hfind valid_update_empty).
    simpl. rewrite apply_update_empty.
    destruct (Update _ _ _) as [[?|err] ?]; simpl; [done |].
    by rewrite Errorf_context.
Qed.

(** C7. If the constructor [NewItem] rejects the input, [CreateItem] returns
    [ErrInvalidInput] wrapped with the text of the constructor's error and
    makes no repository call; if [NewItem] succeeds, [CreateItem] calls
    [Create] once, with the constructed item, and returns the repository's
    item or, on failure, the repository's error wrapped. *)
Theorem CreateItem_validates_then_creates
    `{Domain} {S : Type} (u : itemUsecase S) (input : CreateItemInput) (s : S) :
  (∀ reason,
     NewItem (ciName input) (ciCategory input) (ciBrand input)
             (ciPurchasePrice input) (ciPurchaseDate input) = Err reason →
     outcome (CreateItem u input) s
       = Err (wrapError (Error ErrInvalidInput ++ ": " ++ Error reason)
                        ErrInvalidInput)
     ∧ calls (CreateItem u input) s = []
     ∧ final_store (CreateItem u input) s = s)
  ∧ (∀ item,
       NewItem (ciName input) (ciCategory input) (ciBrand input)
               (ciPurchasePrice input) (ciPurchaseDate input) = Ok item →
       calls (CreateItem u input) s = [CallCreate item]
       ∧ final_store (CreateItem u input) s = (Create (itemRepo u) item s).2
       ∧ outcome (CreateItem u input) s =
           match (Create (itemRepo u) item s).1 with
           | Err err => Err (wrapError ("failed to create item: " ++ Error err) err)
           | Ok createdItem => Ok createdItem
           end).
Proof.
  split.
  - intros reason Hnew. run_usecase. by rewrite Hnew.
  - intros item Hnew. run_usecase. rewrite Hnew.
    destruct (Create (itemRepo u) item s) as [[created|err] s']; simpl; [done |].
    by rewrite Errorf_context.
Qed.

(** C9. Whatever the id and the input, an item [UpdateItem] passes to [Update]
    is the item [FindByID] returned with at most Name, Brand and PurchasePrice
    replaced: its ID, Category and PurchaseDate (and timestamps) are those of
    the fetched item. *)
Theorem UpdateItem_preserves_other_fields
    `{Domain} {S : Type} (u : itemUsecase S) (id : Z) (input : UpdateItemInput)
    (s : S) (item : Item) :
  CallUpdate item ∈ calls (UpdateItem u id input) s →
  ∃ fetched s1,
    FindByID (itemRepo u) id s = (Ok fetched, s1)
    ∧ item = apply_update input fetched
    ∧ ID item = ID fetched
    ∧ Category item = Category fetched
    ∧ PurchaseDate item = PurchaseDate fetched
    ∧ CreatedAt item = CreatedAt fetched
    ∧ UpdatedAt item = UpdatedAt fetched.
Proof.
  unfold calls. intros Hcall.
  destruct (Z.le_gt_cases id 0) as [Hid|Hid].
  { rewrite (UpdateItem_invalid _ _ _ _ Hid) in Hcall.
    by apply elem_of_nil in Hcall. }
  destruct (FindByID (itemRepo u) id s) as [[fetched|err] s1] eqn:Hfind.
  - exists fetched, s1. split; [done |].
    destruct (first_violation input) as [bad|] eqn:Hbad.
    + rewrite (UpdateItem_rejected _ _ _ _ _ _ _ Hid Hfind Hbad) in Hcall.
      by apply list_elem_of_singleton in Hcall.
    + apply first_violation_None in Hbad.
      rewrite (UpdateItem_accepted _ _ _ _ _ _ Hid Hfind Hbad) in Hcall.
      simpl in Hcall.
      apply elem_of_cons in Hcall as [[=]|Hcall].
      apply list_elem_of_singleton in Hcall as [= ->]. by repeat split.
  - rewrite (UpdateItem_lookup_failed _ _ _ _ _ _ Hid Hfind) in Hcall.
    by apply list_elem_of_singleton in Hcall.
Qed.

Lemma UpdateItem_validates_present_fields_witness :
  let u := NewItemUsecase (memRepo ErrItemNotFound) in
  let s : gmap Z Item := {[ 7 := sampleItem ]} in
  let input := mkUpdateItemInput None None (Some (-1)) in
  0 < 7
  ∧ FindByID (itemRepo u) 7 s = (Ok sampleItem, s)
  ∧ ¬ valid_update input
  ∧ (∃ err,
       outcome (UpdateItem u 7 input) s = Err err
       ∧ Unwrap err = Some ErrInvalidInput
       ∧ errors_Is err ErrInvalidInput = true
       ∧ calls (UpdateItem u 7 input) s = [CallFindByID 7]
       ∧ ∀ item, CallUpdate item ∉ calls (UpdateItem u 7 input) s)
  ∧ calls (UpdateItem u 7 emptyUpdate) s = [CallFindByID 7; CallUpdate sampleItem].
Proof.
  intros u s input.
  assert (Hid : 0 < 7) by lia.
  assert (Hfind : FindByID (itemRepo u) 7 s = (Ok sampleItem, s)) by reflexivity.
  assert (Hbad : ¬ valid_update input) by (intros (_ & _ & Hprice); simpl in Hprice; lia).
  pose proof (UpdateItem_validates_present_fields (H := exampleDomain)
                u 7 s s sampleItem Hid Hfind) as (Hrejected & Hcalls & _).
  split; [exact Hid |]. split; [exact Hfind |]. split; [exact Hbad |].
  split; [exact (Hrejected input Hbad) | exact Hcalls].
Defined.

Lemma CreateItem_validates_then_creates_witness :
  let u := NewItemUsecase (memRepo ErrItemNotFound) in
  let s : gmap Z Item := {[ 7 := sampleItem ]} in
  let bad := mkCreateItemInput "" "electronics" "acme" 10 "2024-01-15" in
  let good := mkCreateItemInput "lamp" "electronics" "acme" 10 "2024-01-15" in
  (outcome (CreateItem u bad) s
     = Err (wrapError
              "invalid input: name is required and must be 100 characters or less"
              ErrInvalidInput)
   ∧ calls (CreateItem u bad) s = []
   ∧ final_store (CreateItem u bad) s = s)
  ∧ calls (CreateItem u good) s
      = [CallCreate (mkItem 0 "lamp" "electronics" "acme" 10 "2024-01-15" 0 0)].
Proof.
  intros u s bad good.
  pose proof (CreateItem_validates_then_creates (H := exampleDomain) u bad s)
    as [Hrejected _].
  pose proof (CreateItem_validates_then_creates (H := exampleDomain) u good s)
    as [_ Hcreated].
  split.
  - exact (Hrejected _ eq_refl).
  - exact (proj1 (Hcreated _ eq_refl)).
Defined.

Lemma UpdateItem_preserves_other_fields_witness :
  let u := NewItemUsecase (memRepo ErrItemNotFound) in
  let s : gmap Z Item := {[ 7 := sampleItem ]} in
  let input := mkUpdateItemInput (Some "tripod"%string) None (Some 300) in
  let item := mkItem 7 "tripod" "electronics" "acme" 300 "2024-01-15"
                     1700000000 1700000000 in
  CallUpdate item ∈ calls (UpdateItem u 7 input) s
  ∧ ∃ fetched s1,
      FindByID (itemRepo u) 7 s = (Ok fetched, s1)
      ∧ item = apply_update input fetched
      ∧ ID item = ID fetched
      ∧ Category item = Category fetched
      ∧ PurchaseDate item = PurchaseDate fetched
      ∧ CreatedAt item = CreatedAt fetched
      ∧ UpdatedAt item = UpdatedAt fetched.
Proof.
  intros u s input item.
  assert (Hcall : CallUpdate item ∈ calls (UpdateItem u 7 input) s).
  { apply elem_of_cons. right. apply elem_of_cons. by left. }
  split; [done |].
  exact (UpdateItem_preserves_other_fields (H := exampleDomain) u 7 input s item Hcall).
Defined.

(** ** Failures of the other repository calls *)

(** C3, as amended. A not-found signal of the [FindByID] existence lookup is
    returned by [GetItemByID], [UpdateItem] and [DeleteItem] as the domain
    error [ErrItemNotFound] itself, unwrapped, whatever error the store used
    for the signal; the store's own error, unless it is that very sentinel, is
    then found nowhere in what is returned. A failure of any other repository
    call — [FindAll], [Create], the mutation-phase [Update] and [Delete],
    [GetSummaryByCategory] — is returned wrapped with the operation's context
    message, the store's error as the wrapped cause, whether or not that error
    is a not-found signal. *)
Theorem lookup_not_found_translated_other_failures_wrapped
    `{Domain} {S : Type} (u : itemUsecase S) (s : S) :
  (∀ id raw s',
     0 < id →
     FindByID (itemRepo u) id s = (Err raw, s') → IsNotFoundError raw = true →
     (outcome (GetItemByID u id) s = Err ErrItemNotFound
      ∧ (∀ input, outcome (UpdateItem u id input) s = Err ErrItemNotFound)
      ∧ outcome (DeleteItem u id) s = Err ErrItemNotFound)
     ∧ (raw ≠ ErrItemNotFound →
        translated_not_found raw (outcome (GetItemByID u id) s)
        ∧ (∀ input, translated_not_found raw (outcome (UpdateItem u id input) s))
        ∧ translated_not_found raw (outcome (DeleteItem u id) s)))
  ∧ (∀ id it s1 err s2,
       0 < id → FindByID (itemRepo u) id s = (Ok it, s1) →
       (∀ input,
          valid_update input →
          Update (itemRepo u) (apply_update input it) s1 = (Err err, s2) →
          outcome (UpdateItem u id input) s
            = Err (wrapError ("failed to update item: " ++ Error err) err))
       ∧ (Delete (itemRepo u) id s1 = (Err err, s2) →
          outcome (DeleteItem u id) s
            = Err (wrapError ("failed to delete item: " ++ Error err) err)))
  ∧ (∀ err s',
       FindAll (itemRepo u) s = (Err err, s') →
       outcome (GetAllItems u) s
         = Err (wrapError ("failed to retrieve items: " ++ Error err) err))
  ∧ (∀ input item err s',
       NewItem (ciName input) (ciCategory input) (ciBrand input)
               (ciPurchasePrice input) (ciPurchaseDate input) = Ok item →
       Create (itemRepo u) item s = (Err err, s') →
       outcome (CreateItem u input) s
         = Err (wrapError ("failed to create item: " ++ Error err) err))
  ∧ (∀ err s',
       GetSummaryByCategory (itemRepo u) s = (Err err, s') →
       outcome (GetCategorySummary u) s
         = Err (wrapError ("failed to get category summary: " ++ Error err) err)).
Proof.
  unfold outcome, translated_not_found.
  split; [| split; [| split; [| split]]].
  - intros id raw s' Hid Hfind Hnf.
    assert (Hget : (run (GetItemByID u id) s).1 = Err ErrItemNotFound)
      by (by rewrite (GetItemByID_lookup_failed _ _ _ _ _ Hid Hfind), Hnf).
    assert (Hupdate : ∀ input,
              (run (UpdateItem u id input) s).1 = Err ErrItemNotFound).
    { intros input.
      by rewrite (UpdateItem_lookup_failed _ _ _ _ _ _ Hid Hfind), Hnf. }
    assert (Hdelete : (run (DeleteItem u id) s).1 = Err ErrItemNotFound)
      by (by rewrite (DeleteItem_lookup_failed _ _ _ _ _ Hid Hfind), Hnf).
    split; [by split; [| split] |].
    intros Hraw.
    assert (Hhidden : ∀ err : error,
              Err (A := Item) ErrItemNotFound = Err err →
              errors_Is err raw = false).
    { intros err [= <-]. simpl. by rewrite decide_False. }
    assert (Hhidden' : ∀ err : error,
              Err (A := unit) ErrItemNotFound = Err err →
              errors_Is err raw = false).
    { intros err [= <-]. simpl. by rewrite decide_False. }
    split; [| split]; try intros input.
    + rewrite Hget. by split.
    + rewrite Hupdate. by split.
    + rewrite Hdelete. by split.
  - intros id it s1 err s2 Hid Hfind. split.
    + intros input Hvalid Hupdate.
      rewrite (UpdateItem_accepted _ _ _ _ _ _ Hid Hfind Hvalid), Hupdate. simpl.
      by rewrite Errorf_context.
    + intros Hdelete.
      rewrite (DeleteItem_found _ _ _ _ _ Hid Hfind), Hdelete. simpl.
      by rewrite Errorf_context.
  - intros err s' Hall. run_usecase. rewrite Hall. by rewrite Errorf_context.
  - intros input item err s' Hnew Hcreate. run_usecase.
    rewrite Hnew, Hcreate. by rewrite Errorf_context.
  - intros err s' Hsummary. run_usecase. rewrite Hsummary.
    by rewrite Errorf_context.
Qed.

(** C3, as stated, fails: when the item disappears between the existence
    lookup and the mutation and the store signals not-found with its own
    error, [UpdateItem] and [DeleteItem] return that error wrapped with their
    context message instead of the domain error [ErrItemNotFound]. *)
Lemma mutation_not_found_returned_wrapped :
  let u := NewItemUsecase (vanishingRepo sampleItem rawNotFound) in
  IsNotFoundError rawNotFound = true
  ∧ FindByID (itemRepo u) 7 () = (Ok sampleItem, ())
  ∧ Update (itemRepo u) sampleItem () = (Err rawNotFound, ())
  ∧ Delete (itemRepo u) 7 () = (Err rawNotFound, ())
  ∧ outcome (UpdateItem u 7 emptyUpdate) ()
      = Err (wrapError "failed to update item: item 7: item not found" rawNotFound)
  ∧ outcome (DeleteItem u 7) ()
      = Err (wrapError "failed to delete item: item 7: item not found" rawNotFound)
  ∧ ¬ translated_not_found rawNotFound (outcome (UpdateItem u 7 emptyUpdate) ())
  ∧ ¬ translated_not_found rawNotFound (outcome (DeleteItem u 7) ()).
Proof.
  intros u. repeat (split; [reflexivity |]).
  split; intros [Hreturned _]; discriminate Hreturned.
Qed.

Lemma lookup_not_found_translated_other_failures_wrapped_witness :
  let lost := NewItemUsecase (failingRepo rawNotFound) in
  let bare := NewItemUsecase (failingRepo ErrItemNotFound) in
  let raced := NewItemUsecase (vanishingRepo sampleItem rawNotFound) in
  (0 < 7
   ∧ FindByID (itemRepo lost) 7 () = (Err rawNotFound, ())
   ∧ IsNotFoundError rawNotFound = true
   ∧ outcome (GetItemByID lost 7) () = Err ErrItemNotFound
   ∧ rawNotFound ≠ ErrItemNotFound
   ∧ translated_not_found rawNotFound (outcome (GetItemByID lost 7) ()))
  ∧ (FindByID (itemRepo bare) 7 () = (Err ErrItemNotFound, ())
     ∧ IsNotFoundError ErrItemNotFound = true
     ∧ outcome (DeleteItem bare 7) () = Err ErrItemNotFound)
  ∧ (FindByID (itemRepo raced) 7 () = (Ok sampleItem, ())
     ∧ Delete (itemRepo raced) 7 () = (Err rawNotFound, ())
     ∧ outcome (DeleteItem raced 7) ()
         = Err (wrapError ("failed to delete item: " ++ Error rawNotFound)
                          rawNotFound)).
Proof.
  intros lost bare raced.
  assert (Hid : 0 < 7) by lia.
  assert (Hraw : rawNotFound ≠ ErrItemNotFound) by discriminate.
  pose proof (lookup_not_found_translated_other_failures_wrapped
                (H := exampleDomain) lost ()) as [Hlookup _].
  pose proof (lookup_not_found_translated_other_failures_wrapped
                (H := exampleDomain) bare ()) as [Hbare _].
  pose proof (lookup_not_found_translated_other_failures_wrapped
                (H := exampleDomain) raced ()) as (_ & Hmutation & _).
  destruct (Hlookup 7 rawNotFound () Hid eq_refl eq_refl)
    as [(Hget & _ & _) Hhidden].
  destruct (Hbare 7 ErrItemNotFound () Hid eq_refl eq_refl)
    as [(_ & _ & Hdelete) _].
  split; [| split].
  - split; [exact Hid |]. do 2 (split; [reflexivity |]).
    split; [exact Hget |]. split; [exact Hraw |].
    exact (proj1 (Hhidden Hraw)).
  - do 2 (split; [reflexivity |]). exact Hdelete.
  - do 2 (split; [reflexivity |]).
    exact (proj2 (Hmutation 7 sampleItem () rawNotFound () Hid eq_refl) eq_refl).
Defined.

(** ** The text rule of [UpdateItem] *)

Section TextRule.
Context `{Domain}.

Lemma append_inv_head (t v w : string) :
  String.append t v = String.append t w → v = w.
Proof.
  induction t as [|c t IH]; [done |]. rewrite !append_cons. intros [=]. auto.
Qed.

Lemma name_error_not_brand_error : brand_error ≠ name_error.
Proof.
  unfold name_error, brand_error, price_error, Errorf. intros [= Heq].
  by apply (append_inv_head (Error ErrInvalidInput)) in Heq.
Qed.

Lemma name_error_not_price_error : price_error ≠ name_error.
Proof.
  unfold name_error, brand_error, price_error, Errorf. intros [= Heq].
  by apply (append_inv_head (Error ErrInvalidInput)) in Heq.
Qed.

Lemma brand_error_not_price_error : price_error ≠ brand_error.
Proof.
  unfold name_error, brand_error, price_error, Errorf. intros [= Heq].
  by apply (append_inv_head (Error ErrInvalidInput)) in Heq.
Qed.

Lemma update_failure_not_name_error (err : error) :
  Errorf "failed to update item: " err "" ≠ name_error.
Proof.
  unfold name_error, brand_error, Errorf. intros [= Heq ->].
  apply (f_equal String.length) in Heq.
  rewrite !length_append in Heq. simpl in Heq. lia.
Qed.

Lemma update_failure_not_brand_error (err : error) :
  Errorf "failed to update item: " err "" ≠ brand_error.
Proof.
  unfold name_error, brand_error, Errorf. intros [= Heq ->].
  apply (f_equal String.length) in Heq.
  rewrite !length_append in Heq. simpl in Heq. lia.
Qed.

(** The rule that fails first, field by field. *)
Lemma first_violation_name (input : UpdateItemInput) (name : string) :
  uiName input = Some name →
  first_violation input = Some name_error ↔ ¬ valid_text name.
Proof.
  intros Hname. unfold first_violation, text_violation, price_violation.
  rewrite Hname.
  destruct ((String.length name =? 0)%nat || (100 <? String.length name)%nat)
    eqn:Htest;
    [apply invalid_text_test in Htest | apply valid_text_test in Htest];
    destruct (uiBrand input) as [brand|], (uiPurchasePrice input) as [price|];
    simpl;
    repeat match goal with
      | |- context [(String.length ?v =? 0)%nat || _] =>
          destruct ((String.length v =? 0)%nat || (100 <? String.length v)%nat)
      | |- context [?p <? 0] => destruct (p <? 0)
      end; simpl; (split; [| done]); try done; intros Heq; exfalso;
    first [ apply name_error_not_brand_error; congruence
          | apply name_error_not_price_error; congruence ].
Qed.

Lemma first_violation_brand (input : UpdateItemInput) (brand : string) :
  uiBrand input = Some brand →
  from_option valid_text True (uiName input) →
  first_violation input = Some brand_error ↔ ¬ valid_text brand.
Proof.
  intros Hbrand Hname. unfold first_violation, text_violation, price_violation.
  rewrite Hbrand.
  assert (match uiName input with
          | Some v =>
              if (String.length v =? 0)%nat || (100 <? String.length v)%nat
              then Some name_error else None
          | None => None
          end = None) as ->.
  { destruct (uiName input) as [name|]; [| done].
    apply valid_text_test in Hname. by rewrite Hname. }
  destruct ((String.length brand =? 0)%nat || (100 <? String.length brand)%nat)
    eqn:Htest;
    [apply invalid_text_test in Htest | apply valid_text_test in Htest];
    destruct (uiPurchasePrice input) as [price|]; simpl;
    try destruct (price <? 0); simpl; (split; [| done]); try done.
  intros Heq. exfalso. apply brand_error_not_price_error. congruence.
Qed.
End TextRule.

(** C10. A present Name or Brand of an update is accepted if and only if its
    length in bytes (Go's [len]) is between 1 and 100: otherwise [UpdateItem]
    returns the name error, respectively (the Name being absent or accepted)
    the brand error, both wrapping [ErrInvalidInput]. In particular a text of
    more than 100 bytes is rejected before any [Update] call even when it has
    at most 100 characters. *)
Theorem UpdateItem_text_rule_counts_bytes
    `{Domain} {S : Type} (u : itemUsecase S) (id : Z) (s s1 : S) (it : Item)
    (input : UpdateItemInput) :
  0 < id →
  FindByID (itemRepo u) id s = (Ok it, s1) →
  (∀ name,
     uiName input = Some name →
     outcome (UpdateItem u id input) s = Err name_error
     ↔ ¬ (1 ≤ String.length name ≤ 100)%nat)
  ∧ (∀ brand,
       uiBrand input = Some brand →
       from_option valid_text True (uiName input) →
       outcome (UpdateItem u id input) s = Err brand_error
       ↔ ¬ (1 ≤ String.length brand ≤ 100)%nat)
  ∧ (valid_update input →
     calls (UpdateItem u id input) s
       = [CallFindByID id; CallUpdate (apply_update input it)])
  ∧ (∀ v,
       uiName input = Some v ∨ uiBrand input = Some v →
       (100 < String.length v)%nat →
       (utf8_chars v ≤ 100)%nat →
       ∃ err,
         outcome (UpdateItem u id input) s = Err err
         ∧ Unwrap err = Some ErrInvalidInput
         ∧ errors_Is err ErrInvalidInput = true
         ∧ calls (UpdateItem u id input) s = [CallFindByID id]).
Proof.
  intros Hid Hfind.
  assert (Hrun : ∀ target,
    (∀ err, Errorf "failed to update item: " err "" ≠ target) →
    outcome (UpdateItem u id input) s = Err target
    ↔ first_violation input = Some target).
  { intros target Hother. unfold outcome.
    destruct (first_violation input) as [bad|] eqn:Hbad.
    - rewrite (UpdateItem_rejected _ _ _ _ _ _ _ Hid Hfind Hbad). simpl.
      split; congruence.
    - pose proof Hbad as Hvalid. apply first_violation_None in Hvalid.
      rewrite (UpdateItem_accepted _ _ _ _ _ _ Hid Hfind Hvalid). simpl.
      destruct (Update _ _ _) as [[updated|err] s2]; simpl; split; try done.
      intros [= Heq]. by apply Hother in Heq. }
  split; [| split; [| split]].
  - intros name Hname.
    rewrite (Hrun name_error update_failure_not_name_error).
    by apply first_violation_name.
  - intros brand Hbrand Hname.
    rewrite (Hrun brand_error update_failure_not_brand_error).
    by apply first_violation_brand.
  - intros Hvalid. unfold calls.
    by rewrite (UpdateItem_accepted _ _ _ _ _ _ Hid Hfind Hvalid).
  - intros v Hpresent Hbytes _.
    assert (Hinvalid : ¬ valid_update input).
    { intros (Hname & Hbrand & _).
      destruct Hpresent as [Hv|Hv]; rewrite Hv in *; simpl in *;
        unfold valid_text in *; lia. }
    apply invalid_update_violation in Hinvalid as [err Hfirst].
    exists err. unfold outcome, calls.
    rewrite (UpdateItem_rejected _ _ _ _ _ _ _ Hid Hfind Hfirst). simpl.
    apply first_violation_invalid_input, validation_error_kind in Hfirst
      as [Hunwrap His].
    by repeat split.
Qed.

Lemma UpdateItem_text_rule_counts_bytes_witness :
  let u := NewItemUsecase (memRepo ErrItemNotFound) in
  let s : gmap Z Item := {[ 7 := sampleItem ]} in
  let input := mkUpdateItemInput (Some longName) None None in
  0 < 7
  ∧ FindByID (itemRepo u) 7 s = (Ok sampleItem, s)
  ∧ String.length longName = 102%nat
  ∧ utf8_chars longName = 34%nat
  ∧ ∃ err,
      outcome (UpdateItem u 7 input) s = Err err
      ∧ Unwrap err = Some ErrInvalidInput
      ∧ errors_Is err ErrInvalidInput = true
      ∧ calls (UpdateItem u 7 input) s = [CallFindByID 7].
Proof.
  intros u s input.
  assert (Hid : 0 < 7) by lia.
  assert (Hfind : FindByID (itemRepo u) 7 s = (Ok sampleItem, s)) by reflexivity.
  assert (Hbytes : (100 < String.length longName)%nat) by (vm_compute; lia).
  assert (Hchars : (utf8_chars longName ≤ 100)%nat) by (vm_compute; lia).
  pose proof (UpdateItem_text_rule_counts_bytes (H := exampleDomain)
                u 7 s s sampleItem input Hid Hfind) as (_ & _ & _ & Hlong).
  split; [exact Hid |]. do 3 (split; [reflexivity |]).
  exact (Hlong longName (or_introl eq_refl) Hbytes Hchars).
Defined.

(** ** Deleting twice *)

Lemma memRepo_MapLike `{Domain} (notFound : error) :
  IsNotFoundError notFound = true →
  MapLike (memRepo notFound) (λ store, store).
Proof.
  intros Hnf. split; simpl.
  - intros store id it ->. by exists store.
  - intros store id ->. by exists notFound, store.
  - intros store id it ->. by exists (delete id store).
Qed.

(** C8. On a repository that behaves as a map from ids to items, for every
    id > 0 whose item exists, a first [DeleteItem] succeeds and removes that id
    only, and a second [DeleteItem] on the same id returns [ErrItemNotFound]. *)
Theorem DeleteItem_twice
    `{Domain} {S : Type} (u : itemUsecase S) (items : S → gmap Z Item)
    (id : Z) (s : S) (it : Item) :
  MapLike (itemRepo u) items →
  0 < id →
  items s !! id = Some it →
  outcome (DeleteItem u id) s = Ok ()
  ∧ items (final_store (DeleteItem u id) s) = delete id (items s)
  ∧ outcome (DeleteItem u id) (final_store (DeleteItem u id) s)
      = Err ErrItemNotFound.
Proof.
  intros Hmap Hid Hheld.
  destruct (maplike_find_some _ _ Hmap s id it Hheld) as (s1 & Hfind & Hs1).
  rewrite <- Hs1 in Hheld.
  destruct (maplike_delete _ _ Hmap s1 id it Hheld) as (s2 & Hdelete & Hs2).
  assert (Hfirst : run (DeleteItem u id) s
                   = (Ok (), (s2, [CallFindByID id; CallDelete id]))).
  { by rewrite (DeleteItem_found _ _ _ _ _ Hid Hfind), Hdelete. }
  unfold outcome, final_store. rewrite Hfirst. simpl.
  split; [done |]. split; [by rewrite Hs2, Hs1 |].
  assert (Hgone : items s2 !! id = None) by (rewrite Hs2; apply lookup_delete_eq).
  destruct (maplike_find_none _ _ Hmap s2 id Hgone) as (err & s3 & Hnone & Hnf & _).
  by rewrite (DeleteItem_lookup_failed _ _ _ _ _ Hid Hnone), Hnf.
Qed.

Lemma DeleteItem_twice_witness :
  let u := NewItemUsecase (memRepo ErrItemNotFound) in
  let s : gmap Z Item := {[ 7 := sampleItem ]} in
  MapLike (itemRepo u) (λ store, store)
  ∧ 0 < 7
  ∧ s !! 7 = Some sampleItem
  ∧ outcome (DeleteItem u 7) s = Ok ()
  ∧ final_store (DeleteItem u 7) s = delete 7 s
  ∧ outcome (DeleteItem u 7) (final_store (DeleteItem u 7) s) = Err ErrItemNotFound.
Proof.
  intros u s.
  assert (Hmap : MapLike (H := exampleDomain) (itemRepo u) (λ store, store))
    by (apply memRepo_MapLike; reflexivity).
  assert (Hid : 0 < 7) by lia.
  assert (Hheld : s !! 7 = Some sampleItem) by reflexivity.
  split; [exact Hmap |]. split; [exact Hid |]. split; [exact Hheld |].
  exact (DeleteItem_twice (H := exampleDomain) u (λ store, store) 7 s sampleItem
           Hmap Hid Hheld).
Defined.

(** ** The category summary *)

Ltac int_constants :=
  unfold int_add, int_wrap, int_min, int_max in *;
  change (2 ^ 64) with 18446744073709551616 in *;
  change (2 ^ 63) with 9223372036854775808 in *.

Section IntArithmetic.
Lemma int_wrap_in_range (z : Z) : int_min ≤ z ≤ int_max → int_wrap z = z.
Proof.
  intros Hz. int_constants. rewrite Z.mod_small; lia.
Qed.

Lemma int_wrap_range (z : Z) : int_min ≤ int_wrap z ≤ int_max.
Proof.
  int_constants.
  pose proof (Z.mod_pos_bound (z + 9223372036854775808) 18446744073709551616).
  lia.
Qed.

Lemma int_add_wrap_l (x y : Z) : int_add (int_wrap x) y = int_wrap (x + y).
Proof.
  unfold int_add, int_wrap.
  replace ((x + 2 ^ 63) mod 2 ^ 64 - 2 ^ 63 + y + 2 ^ 63)
    with ((x + 2 ^ 63) mod 2 ^ 64 + y) by lia.
  rewrite Zplus_mod_idemp_l. f_equal. f_equal. lia.
Qed.

(** The loop [total += count] computes the exact sum of the counts, reduced
    to the range of [int]. *)
Lemma sum_counts_from (entries : list (string * Z)) (z : Z) :
  foldl (λ total entry, int_add total entry.2) (int_wrap z) entries
  = int_wrap (z + foldr Z.add 0 entries.*2).
Proof.
  revert z. induction entries as [|[k count] entries IH]; intros z; simpl.
  - by rewrite Z.add_0_r.
  - rewrite int_add_wrap_l, IH. f_equal. by rewrite <- Z.add_assoc.
Qed.

Lemma sum_counts_exact (entries : list (string * Z)) :
  sum_counts entries = int_wrap (foldr Z.add 0 entries.*2).
Proof.
  unfold sum_counts. change 0 with (int_wrap 0) at 1.
  by rewrite sum_counts_from.
Qed.

Lemma foldr_add_permutation (l l' : list Z) :
  l ≡ₚ l' → foldr Z.add 0 l = foldr Z.add 0 l'.
Proof. induction 1; simpl; lia. Qed.

(** The order in which [range] visits the map does not matter. *)
Lemma sum_counts_permutation (entries entries' : list (string * Z)) :
  entries ≡ₚ entries' → sum_counts entries = sum_counts entries'.
Proof.
  intros Hperm. rewrite !sum_counts_exact. f_equal.
  apply foldr_add_permutation. by rewrite Hperm.
Qed.
End IntArithmetic.

Section MapSum.
Implicit Types (m : gmap string Z) (k : string) (v : Z).

Lemma map_sum_empty : map_sum ∅ = 0.
Proof. apply map_fold_empty. Qed.

Lemma map_sum_insert m k v :
  m !! k = None → map_sum (<[k:=v]> m) = v + map_sum m.
Proof.
  intros Hk. unfold map_sum. rewrite map_fold_insert_L; [done | | done].
  intros. lia.
Qed.

Lemma map_sum_delete m k v :
  m !! k = Some v → map_sum m = v + map_sum (delete k m).
Proof.
  intros Hk. rewrite <- (insert_delete_id m k v Hk) at 1.
  apply map_sum_insert, lookup_delete_eq.
Qed.

Lemma map_sum_replace m k v w :
  m !! k = Some w → map_sum (<[k:=v]> m) = v - w + map_sum m.
Proof.
  intros Hk. rewrite (map_sum_delete m k w Hk), <- insert_delete_eq.
  rewrite map_sum_insert by apply lookup_delete_eq. lia.
Qed.

Lemma map_sum_entries m : map_sum m = foldr Z.add 0 (map_to_list m).*2.
Proof.
  unfold map_sum. rewrite map_fold_foldr.
  induction (map_to_list m) as [|[k v] l IH]; csimpl; [done | by rewrite IH].
Qed.

Lemma map_sum_zero m : (∀ k v, m !! k = Some v → v = 0) → map_sum m = 0.
Proof.
  induction m as [|k v m Hk IH] using map_ind; intros Hzero.
  - apply map_sum_empty.
  - rewrite map_sum_insert by done.
    rewrite (Hzero k v) by apply lookup_insert_eq.
    rewrite IH; [done |]. intros k' v' Hk'. apply (Hzero k').
    rewrite lookup_insert_ne; [done |]. intros ->. congruence.
Qed.

Lemma map_sum_nonneg m : (∀ k v, m !! k = Some v → 0 ≤ v) → 0 ≤ map_sum m.
Proof.
  induction m as [|k v m Hk IH] using map_ind; intros Hnonneg.
  - by rewrite map_sum_empty.
  - rewrite map_sum_insert by done.
    pose proof (Hnonneg k v (lookup_insert_eq _ _ _)).
    assert (0 ≤ map_sum m); [| lia].
    apply IH. intros k' v' Hk'. apply (Hnonneg k').
    rewrite lookup_insert_ne; [done |]. intros ->. congruence.
Qed.
End MapSum.

Section FillSummary.
Implicit Types (counts : gmap string Z) (categories : list string).

Lemma fill_summary_lookup_from counts categories (summary : gmap string Z)
    (c : string) :
  foldl (λ summary category,
           match counts !! category with
           | Some count => <[category := count]> summary
           | None => <[category := 0]> summary
           end) summary categories !! c
  = if decide (c ∈ categories) then Some (default 0 (counts !! c))
    else summary !! c.
Proof.
  revert summary.
  induction categories as [|category categories IH]; intros summary; simpl.
  - destruct (decide (c ∈ [])) as [Hin|_]; [| done].
    by apply elem_of_nil in Hin.
  - rewrite IH.
    assert (Hstep : match counts !! category with
                    | Some count => <[category:=count]> summary
                    | None => <[category:=0]> summary
                    end = <[category:=default 0 (counts !! category)]> summary)
      by (by destruct (counts !! category)).
    rewrite Hstep.
    destruct (decide (c ∈ categories)) as [Hin|Hout].
    + rewrite decide_True; [done |]. apply elem_of_cons. by right.
    + destruct (decide (c = category)) as [->|Hne].
      * rewrite lookup_insert_eq, decide_True; [done |].
        apply elem_of_cons. by left.
      * rewrite lookup_insert_ne by done.
        rewrite decide_False; [done |].
        intros [?|?]%elem_of_cons; done.
Qed.

Lemma fill_summary_lookup counts categories (c : string) :
  fill_summary counts categories !! c
  = if decide (c ∈ categories) then Some (default 0 (counts !! c)) else None.
Proof.
  unfold fill_summary. rewrite fill_summary_lookup_from.
  by rewrite lookup_empty.
Qed.

Lemma fill_summary_dom counts categories :
  dom (fill_summary counts categories) = list_to_set categories.
Proof.
  apply set_eq. intros c.
  rewrite elem_of_dom, elem_of_list_to_set, fill_summary_lookup.
  destruct (decide (c ∈ categories)); split; done.
Qed.

Lemma fill_summary_insert_valid counts categories (k : string) (v : Z) :
  k ∈ categories →
  fill_summary (<[k:=v]> counts) categories
  = <[k:=v]> (fill_summary counts categories).
Proof.
  intros Hin. apply map_eq. intros c.
  rewrite fill_summary_lookup.
  destruct (decide (c = k)) as [->|Hne].
  - by rewrite !lookup_insert_eq, decide_True.
  - by rewrite !lookup_insert_ne, fill_summary_lookup.
Qed.

Lemma fill_summary_insert_other counts categories (k : string) (v : Z) :
  k ∉ categories →
  fill_summary (<[k:=v]> counts) categories = fill_summary counts categories.
Proof.
  intros Hout. apply map_eq. intros c.
  rewrite !fill_summary_lookup.
  destruct (decide (c ∈ categories)) as [Hin|]; [| done].
  rewrite lookup_insert_ne; [done |]. by intros ->.
Qed.

(** The raw counts split into those the summary keeps and those of the
    categories outside the valid list. *)
Lemma map_sum_split counts categories :
  map_sum counts
  = map_sum (fill_summary counts categories)
    + map_sum (filter (λ entry, entry.1 ∉ categories) counts).
Proof.
  induction counts as [|k v counts Hk IH] using map_ind.
  - rewrite map_filter_empty, map_sum_empty.
    rewrite (map_sum_zero (fill_summary ∅ categories)); [done |].
    intros c n. rewrite fill_summary_lookup.
    destruct (decide (c ∈ categories)); [| done].
    rewrite lookup_empty. by intros [= <-].
  - rewrite map_sum_insert by done.
    destruct (decide (k ∈ categories)) as [Hin|Hout].
    + rewrite fill_summary_insert_valid by done.
      rewrite (map_sum_replace _ k v 0).
      2: { by rewrite fill_summary_lookup, decide_True, Hk. }
      rewrite map_filter_insert_not by (simpl; intros ? ?; done).
      lia.
    + rewrite fill_summary_insert_other by done.
      rewrite map_filter_insert_True by done.
      rewrite map_sum_insert; [lia |].
      by rewrite map_lookup_filter_None; left.
Qed.

Lemma map_sum_inside counts categories :
  (∀ c, is_Some (counts !! c) → c ∈ categories) →
  map_sum (fill_summary counts categories) = map_sum counts.
Proof.
  intros Hinside. rewrite (map_sum_split counts categories).
  rewrite (map_empty_filter_2 _ counts), map_sum_empty; [lia |].
  intros c n Hc Hout. apply Hout, Hinside. by eexists.
Qed.

Lemma map_sum_outside counts categories (c : string) (n : Z) :
  (∀ k v, counts !! k = Some v → 0 ≤ v) →
  c ∉ categories → counts !! c = Some n →
  map_sum (fill_summary counts categories) + n ≤ map_sum counts.
Proof.
  intros Hnonneg Hout Hc. rewrite (map_sum_split counts categories).
  set (outside := filter (λ entry, entry.1 ∉ categories) counts).
  assert (Hheld : outside !! c = Some n) by (by apply map_lookup_filter_Some).
  rewrite (map_sum_delete outside c n Hheld).
  assert (0 ≤ map_sum (delete c outside)); [| lia].
  apply map_sum_nonneg. intros k v Hkv.
  apply lookup_delete_Some in Hkv as [_ Hkv].
  apply map_lookup_filter_Some in Hkv as [Hkv _]. by apply (Hnonneg k).
Qed.
End FillSummary.

Section Summary.
Context `{Domain} {S : Type}.
Implicit Types (u : itemUsecase S) (s : S) (counts : gmap string Z).

Lemma GetCategorySummary_run u s counts s' :
  GetSummaryByCategory (itemRepo u) s = (Ok counts, s') →
  run (GetCategorySummary u) s
  = (Ok {| Categories := fill_summary counts GetValidCategories;
           Total := sum_counts (map_to_list counts) |},
     (s', [CallGetSummaryByCategory])).
Proof. intros Hcounts. run_usecase. by rewrite Hcounts. Qed.

Lemma Total_exact counts :
  sum_counts (map_to_list counts) = int_wrap (map_sum counts).
Proof. by rewrite sum_counts_exact, map_sum_entries. Qed.
End Summary.

(** C1. Whatever counts [GetSummaryByCategory] returns, [GetCategorySummary]
    returns a Categories map whose keys are exactly the valid categories, each
    mapped to the repository's count when the repository has one and to 0
    otherwise, and a Total that is the sum of all the raw counts, those of
    categories outside the valid set included. The sum is the one Go's [int]
    addition computes: the exact sum reduced to the range of [int], so the
    exact sum itself whenever that fits; and it does not depend on the order
    in which the map is traversed. *)
Theorem GetCategorySummary_zero_fills_and_totals
    `{Domain} {S : Type} (u : itemUsecase S) (s s' : S) (counts : gmap string Z) :
  GetSummaryByCategory (itemRepo u) s = (Ok counts, s') →
  ∃ summary,
    outcome (GetCategorySummary u) s = Ok summary
    ∧ dom (Categories summary) = list_to_set GetValidCategories
    ∧ (∀ c, c ∈ GetValidCategories →
         Categories summary !! c
         = Some (match counts !! c with Some count => count | None => 0 end))
    ∧ Total summary = int_wrap (map_sum counts)
    ∧ (int_min ≤ map_sum counts ≤ int_max → Total summary = map_sum counts)
    ∧ (∀ entries, entries ≡ₚ map_to_list counts →
         sum_counts entries = Total summary).
Proof.
  intros Hcounts.
  exists {| Categories := fill_summary counts GetValidCategories;
            Total := sum_counts (map_to_list counts) |}.
  unfold outcome. rewrite (GetCategorySummary_run _ _ _ _ Hcounts). simpl.
  split; [done |]. split; [apply fill_summary_dom |].
  split; [| split; [| split]].
  - intros c Hc. by rewrite fill_summary_lookup, decide_True.
  - apply Total_exact.
  - intros Hrange. by rewrite Total_exact, int_wrap_in_range.
  - intros entries Hperm. by apply sum_counts_permutation.
Qed.

Lemma GetCategorySummary_zero_fills_and_totals_witness :
  let counts : gmap string Z := {[ "electronics"%string := 3 ]} in
  let u := NewItemUsecase (countsRepo counts) in
  GetSummaryByCategory (itemRepo u) () = (Ok counts, ())
  ∧ outcome (GetCategorySummary u) ()
      = Ok {| Categories := {[ "electronics"%string := 3; "clothing"%string := 0 ]};
              Total := 3 |}
  ∧ ∃ summary,
      outcome (GetCategorySummary u) () = Ok summary
      ∧ dom (Categories summary) = list_to_set GetValidCategories
      ∧ (∀ c, c ∈ GetValidCategories →
           Categories summary !! c
           = Some (match counts !! c with Some count => count | None => 0 end))
      ∧ Total summary = int_wrap (map_sum counts)
      ∧ (int_min ≤ map_sum counts ≤ int_max → Total summary = map_sum counts)
      ∧ (∀ entries, entries ≡ₚ map_to_list counts →
           sum_counts entries = Total summary).
Proof.
  intros counts u.
  assert (Hcounts : GetSummaryByCategory (itemRepo u) () = (Ok counts, ()))
    by reflexivity.
  split; [exact Hcounts |]. split; [by vm_compute |].
  exact (GetCategorySummary_zero_fills_and_totals (H := exampleDomain)
           u () () counts Hcounts).
Defined.

(** C2. Some repository result with a positive count for a category outside
    the valid set makes Total strictly larger than the sum of the values of
    the returned Categories map (and so does every such result whose counts
    are non-negative and sum up within the range of [int]); for every result
    whose keys all lie in the valid set, Total is the sum of those values, as
    [int] addition computes it. *)
Theorem Total_exceeds_Categories_only_outside_valid_set `{Domain} :
  (∃ (counts : gmap string Z) (c : string) (n : Z),
     (c ∉ GetValidCategories) ∧ counts !! c = Some n ∧ 0 < n
     ∧ ∀ (S : Type) (u : itemUsecase S) (s s' : S),
         GetSummaryByCategory (itemRepo u) s = (Ok counts, s') →
         ∃ summary,
           outcome (GetCategorySummary u) s = Ok summary
           ∧ map_sum (Categories summary) < Total summary)
  ∧ (∀ (counts : gmap string Z) (c : string) (n : Z),
       c ∉ GetValidCategories → counts !! c = Some n → 0 < n →
       (∀ k v, counts !! k = Some v → 0 ≤ v) →
       map_sum counts ≤ int_max →
       ∀ (S : Type) (u : itemUsecase S) (s s' : S),
         GetSummaryByCategory (itemRepo u) s = (Ok counts, s') →
         ∃ summary,
           outcome (GetCategorySummary u) s = Ok summary
           ∧ map_sum (Categories summary) < Total summary)
  ∧ (∀ (counts : gmap string Z),
       (∀ c, is_Some (counts !! c) → c ∈ GetValidCategories) →
       ∀ (S : Type) (u : itemUsecase S) (s s' : S),
         GetSummaryByCategory (itemRepo u) s = (Ok counts, s') →
         ∃ summary,
           outcome (GetCategorySummary u) s = Ok summary
           ∧ Total summary = int_wrap (map_sum (Categories summary))
           ∧ (int_min ≤ map_sum counts ≤ int_max →
              Total summary = map_sum (Categories summary))).
Proof.
  assert (Houtside : ∀ (counts : gmap string Z) (c : string) (n : Z),
    c ∉ GetValidCategories → counts !! c = Some n → 0 < n →
    (∀ k v, counts !! k = Some v → 0 ≤ v) →
    map_sum counts ≤ int_max →
    ∀ (S : Type) (u : itemUsecase S) (s s' : S),
      GetSummaryByCategory (itemRepo u) s = (Ok counts, s') →
      ∃ summary,
        outcome (GetCategorySummary u) s = Ok summary
        ∧ map_sum (Categories summary) < Total summary).
  { intros counts c n Hout Hc Hn Hnonneg Hfit S u s s' Hcounts.
    exists {| Categories := fill_summary counts GetValidCategories;
              Total := sum_counts (map_to_list counts) |}.
    unfold outcome. rewrite (GetCategorySummary_run _ _ _ _ Hcounts). simpl.
    split; [done |].
    pose proof (map_sum_outside counts GetValidCategories c n Hnonneg Hout Hc).
    pose proof (map_sum_nonneg counts Hnonneg).
    rewrite Total_exact, int_wrap_in_range; [lia |].
    int_constants. lia. }
  split; [| split; [exact Houtside |]].
  - set (c := infinite_fresh GetValidCategories).
    exists {[ c := 1 ]}, c, 1.
    assert (Hc : c ∉ GetValidCategories) by apply infinite_is_fresh.
    split; [done |]. split; [apply lookup_singleton_eq |]. split; [lia |].
    apply (Houtside _ c 1); [done | apply lookup_singleton_eq | lia | |].
    + intros k v [_ <-]%lookup_singleton_Some. lia.
    + rewrite <- insert_empty, map_sum_insert, map_sum_empty by done.
      int_constants. lia.
  - intros counts Hinside S u s s' Hcounts.
    exists {| Categories := fill_summary counts GetValidCategories;
              Total := sum_counts (map_to_list counts) |}.
    unfold outcome. rewrite (GetCategorySummary_run _ _ _ _ Hcounts). simpl.
    split; [done |].
    rewrite (map_sum_inside counts GetValidCategories Hinside), Total_exact.
    split; [done |]. apply int_wrap_in_range.
Qed.

Lemma Total_exceeds_Categories_only_outside_valid_set_witness :
  let stray : gmap string Z := {[ "electronics"%string := 3; "toys"%string := 2 ]} in
  let u := NewItemUsecase (countsRepo stray) in
  (("toys"%string ∉ GetValidCategories)
   ∧ stray !! "toys"%string = Some 2
   ∧ 0 < 2
   ∧ (∀ k v, stray !! k = Some v → 0 ≤ v)
   ∧ map_sum stray ≤ int_max
   ∧ GetSummaryByCategory (itemRepo u) () = (Ok stray, ()))
  ∧ outcome (GetCategorySummary u) ()
      = Ok {| Categories := {[ "electronics"%string := 3; "clothing"%string := 0 ]};
              Total := 5 |}
  ∧ ∃ summary,
      outcome (GetCategorySummary u) () = Ok summary
      ∧ map_sum (Categories summary) < Total summary.
Proof.
  intros stray u.
  assert (Hout : "toys"%string ∉ GetValidCategories)
    by (apply not_elem_of_cons; split; [done |];
        apply not_elem_of_cons; split; [done | apply not_elem_of_nil]).
  assert (Hheld : stray !! "toys"%string = Some 2) by reflexivity.
  assert (Hpos : 0 < 2) by lia.
  assert (Hnonneg : ∀ k v, stray !! k = Some v → 0 ≤ v).
  { intros k v Hkv. unfold stray in Hkv.
    apply lookup_insert_Some in Hkv as [[_ <-]|[_ Hkv]]; [lia |].
    apply lookup_singleton_Some in Hkv as [_ <-]. lia. }
  assert (Hfit : map_sum stray ≤ int_max) by (by vm_compute).
  assert (Hcounts : GetSummaryByCategory (itemRepo u) () = (Ok stray, ()))
    by reflexivity.
  split; [by repeat split |]. split; [by vm_compute |].
  exact (proj1 (proj2 (Total_exceeds_Categories_only_outside_valid_set
                         (H := exampleDomain)))
           stray "toys"%string 2 Hout Hheld Hpos Hnonneg Hfit
           unit u () () Hcounts).
Defined.

(** The range of [int] is where the exactness of Total ends: past it the
    addition wraps around. *)
Example Total_wraps_around :
  sum_counts [("electronics"%string, int_max); ("clothing"%string, 1)] = int_min.
Proof. reflexivity. Qed.

(** * Further properties of the operations *)

(** ** How each operation runs, case by case *)

Section Cases.
Context `{Domain} {S : Type}.
Implicit Types (u : itemUsecase S) (id : Z) (s : S) (it : Item).

Lemma GetAllItems_run u s :
  run (GetAllItems u) s =
    (match (FindAll (itemRepo u) s).1 with
     | Err err => Err (wrapError ("failed to retrieve items: " ++ Error err) err)
     | Ok items => Ok items
     end,
     ((FindAll (itemRepo u) s).2, [CallFindAll])).
Proof.
  run_usecase. destruct (FindAll (itemRepo u) s) as [[items|err] s']; simpl;
    [done | by rewrite Errorf_context].
Qed.

Lemma GetItemByID_cases u id s :
  (id ≤ 0 ∧ run (GetItemByID u id) s = (Err ErrInvalidInput, (s, [])))
  ∨ (0 < id ∧ ∃ err s',
       FindByID (itemRepo u) id s = (Err err, s')
       ∧ run (GetItemByID u id) s =
           (Err (if IsNotFoundError err then ErrItemNotFound
                 else Errorf "failed to retrieve item: " err ""),
            (s', [CallFindByID id])))
  ∨ (0 < id ∧ ∃ it s',
       FindByID (itemRepo u) id s = (Ok it, s')
       ∧ run (GetItemByID u id) s = (Ok it, (s', [CallFindByID id]))).
Proof.
  destruct (Z.le_gt_cases id 0) as [Hid|Hid].
  { left. split; [done |]. by apply GetItemByID_invalid. }
  right.
  destruct (FindByID (itemRepo u) id s) as [[it|err] s'] eqn:Hfind.
  - right. split; [done |]. exists it, s'. split; [done |].
    by apply GetItemByID_found.
  - left. split; [done |]. exists err, s'. split; [done |].
    by apply GetItemByID_lookup_failed.
Qed.

Lemma UpdateItem_cases u id input s :
  (id ≤ 0 ∧ run (UpdateItem u id input) s = (Err ErrInvalidInput, (s, [])))
  ∨ (0 < id ∧ ∃ err s',
       FindByID (itemRepo u) id s = (Err err, s')
       ∧ run (UpdateItem u id input) s =
           (Err (if IsNotFoundError err then ErrItemNotFound
                 else Errorf "failed to retrieve item for update: " err ""),
            (s', [CallFindByID id])))
  ∨ (0 < id ∧ ∃ it s1 bad,
       FindByID (itemRepo u) id s = (Ok it, s1)
       ∧ first_violation input = Some bad
       ∧ run (UpdateItem u id input) s = (Err bad, (s1, [CallFindByID id])))
  ∨ (0 < id ∧ ∃ it s1,
       FindByID (itemRepo u) id s = (Ok it, s1)
       ∧ valid_update input
       ∧ run (UpdateItem u id input) s =
           (match (Update (itemRepo u) (apply_update input it) s1).1 with
            | Err err => Err (Errorf "failed to update item: " err "")
            | Ok updatedItem => Ok updatedItem
            end,
            ((Update (itemRepo u) (apply_update input it) s1).2,
             [CallFindByID id; CallUpdate (apply_update input it)]))).
Proof.
  destruct (Z.le_gt_cases id 0) as [Hid|Hid].
  { left. split; [done |]. by apply UpdateItem_invalid. }
  right.
  destruct (FindByID (itemRepo u) id s) as [[it|err] s1] eqn:Hfind.
  - right. destruct (first_violation input) as [bad|] eqn:Hbad.
    + left. split; [done |]. exists it, s1, bad. split; [done |]. split; [done |].
      by apply (UpdateItem_rejected _ _ _ _ it).
    + right. apply first_violation_None in Hbad. split; [done |].
      exists it, s1. split; [done |]. split; [done |].
      by apply UpdateItem_accepted.
  - left. split; [done |]. exists err, s1. split; [done |].
    by apply UpdateItem_lookup_failed.
Qed.

Lemma DeleteItem_cases u id s :
  (id ≤ 0 ∧ run (DeleteItem u id) s = (Err ErrInvalidInput, (s, [])))
  ∨ (0 < id ∧ ∃ err s',
       FindByID (itemRepo u) id s = (Err err, s')
       ∧ run (DeleteItem u id) s =
           (Err (if IsNotFoundError err then ErrItemNotFound
                 else Errorf "failed to check item existence: " err ""),
            (s', [CallFindByID id])))
  ∨ (0 < id ∧ ∃ it s1,
       FindByID (itemRepo u) id s = (Ok it, s1)
       ∧ run (DeleteItem u id) s =
           (match (Delete (itemRepo u) id s1).1 with
            | Err err => Err (Errorf "failed to delete item: " err "")
            | Ok _ => Ok ()
            end,
            ((Delete (itemRepo u) id s1).2, [CallFindByID id; CallDelete id]))).
Proof.
  destruct (Z.le_gt_cases id 0) as [Hid|Hid].
  { left. split; [done |]. by apply DeleteItem_invalid. }
  right.
  destruct (FindByID (itemRepo u) id s) as [[it|err] s1] eqn:Hfind.
  - right. split; [done |]. exists it, s1. split; [done |].
    by apply (DeleteItem_found _ _ _ it).
  - left. split; [done |]. exists err, s1. split; [done |].
    by apply DeleteItem_lookup_failed.
Qed.

Lemma CreateItem_run u input s :
  run (CreateItem u input) s =
    match NewItem (ciName input) (ciCategory input) (ciBrand input)
                  (ciPurchasePrice input) (ciPurchaseDate input) with
    | Err reason =>
        (Err (wrapError (Error ErrInvalidInput ++ ": " ++ Error reason)
                        ErrInvalidInput), (s, []))
    | Ok item =>
        (match (Create (itemRepo u) item s).1 with
         | Err err => Err (wrapError ("failed to create item: " ++ Error err) err)
         | Ok createdItem => Ok createdItem
         end,
         ((Create (itemRepo u) item s).2, [CallCreate item]))
    end.
Proof.
  run_usecase.
  destruct (NewItem _ _ _ _ _) as [item|reason]; [| done].
  destruct (Create (itemRepo u) item s) as [[created|err] s']; simpl;
    [done | by rewrite Errorf_context].
Qed.

Lemma GetCategorySummary_cases u s :
  calls (GetCategorySummary u) s = [CallGetSummaryByCategory]
  ∧ final_store (GetCategorySummary u) s = (GetSummaryByCategory (itemRepo u) s).2.
Proof.
  run_usecase.
  by destruct (GetSummaryByCategory (itemRepo u) s) as [[counts|err] s'].
Qed.
End Cases.

(** ** Which calls are made, and when an operation succeeds *)

(** X1. The three reading operations never call [Create], [Update] or
    [Delete], whatever the repository answers. *)
Theorem read_operations_never_mutate
    `{Domain} {S : Type} (u : itemUsecase S) (id : Z) (s : S) :
  Forall (λ c, is_mutation c = false) (calls (GetAllItems u) s)
  ∧ Forall (λ c, is_mutation c = false) (calls (GetItemByID u id) s)
  ∧ Forall (λ c, is_mutation c = false) (calls (GetCategorySummary u) s).
Proof.
  unfold calls. split; [| split].
  - rewrite GetAllItems_run. simpl. by repeat constructor.
  - destruct (GetItemByID_cases u id s)
      as [[_ ->]|[(_ & err & s' & _ & ->)|(_ & it & s' & _ & ->)]];
      simpl; by repeat constructor.
  - pose proof (GetCategorySummary_cases u s) as [Hcalls _].
    unfold calls in Hcalls. rewrite Hcalls. by repeat constructor.
Qed.

(** X2. [UpdateItem] calls [Update] exactly when the id is positive, the
    lookup finds an item and every present field is within its rule; the item
    it passes is then the fetched one with the present fields replaced. Its
    call log is empty, the lookup alone, or the lookup followed by that one
    [Update]. *)
Theorem UpdateItem_calls_Update_iff
    `{Domain} {S : Type} (u : itemUsecase S) (id : Z) (input : UpdateItemInput)
    (s : S) :
  (∀ item,
     CallUpdate item ∈ calls (UpdateItem u id input) s
     ↔ 0 < id ∧ valid_update input
       ∧ ∃ it s1, FindByID (itemRepo u) id s = (Ok it, s1)
                  ∧ item = apply_update input it)
  ∧ (calls (UpdateItem u id input) s = []
     ∨ calls (UpdateItem u id input) s = [CallFindByID id]
     ∨ ∃ item, calls (UpdateItem u id input) s = [CallFindByID id; CallUpdate item]).
Proof.
  unfold calls.
  destruct (UpdateItem_cases u id input s)
    as [[Hid ->]|[(Hid & err & s' & Hfind & ->)
       |[(Hid & it & s1 & bad & Hfind & Hbad & ->)
        |(Hid & it & s1 & Hfind & Hvalid & ->)]]]; simpl.
  - split; [| by left]. intros item. split.
    + by intros ?%elem_of_nil.
    + intros [? _]. lia.
  - split; [| by right; left]. intros item. split.
    + by intros [=]%list_elem_of_singleton.
    + intros (_ & _ & it & s1 & Hfound & _). congruence.
  - split; [| by right; left]. intros item. split.
    + by intros [=]%list_elem_of_singleton.
    + intros (_ & Hvalid & _). apply first_violation_None in Hvalid. congruence.
  - split; [| right; right; by eexists]. intros item. split.
    + intros [[=]|[= ->]%list_elem_of_singleton]%elem_of_cons.
      split; [done |]. split; [done |]. by exists it, s1.
    + intros (_ & _ & it' & s1' & Hfound & ->).
      assert (it' = it) as -> by congruence.
      apply elem_of_cons. right. by apply list_elem_of_singleton.
Qed.

(** X3. [DeleteItem] calls [Delete] exactly when the id is positive and the
    lookup finds an item, and only for the id it was given. Its call log is
    empty, the lookup alone, or the lookup followed by that one [Delete]. *)
Theorem DeleteItem_calls_Delete_iff
    `{Domain} {S : Type} (u : itemUsecase S) (id : Z) (s : S) :
  (∀ id',
     CallDelete id' ∈ calls (DeleteItem u id) s
     ↔ id' = id ∧ 0 < id
       ∧ ∃ it s1, FindByID (itemRepo u) id s = (Ok it, s1))
  ∧ (calls (DeleteItem u id) s = []
     ∨ calls (DeleteItem u id) s = [CallFindByID id]
     ∨ calls (DeleteItem u id) s = [CallFindByID id; CallDelete id]).
Proof.
  unfold calls.
  destruct (DeleteItem_cases u id s)
    as [[Hid ->]|[(Hid & err & s' & Hfind & ->)
       |(Hid & it & s1 & Hfind & ->)]]; simpl.
  - split; [| by left]. intros id'. split.
    + by intros ?%elem_of_nil.
    + intros (_ & ? & _). lia.
  - split; [| by right; left]. intros id'. split.
    + by intros [=]%list_elem_of_singleton.
    + intros (_ & _ & it & s1 & Hfound). congruence.
  - split; [| by right; right]. intros id'. split.
    + intros [[=]|[= ->]%list_elem_of_singleton]%elem_of_cons.
      split; [done |]. split; [done |]. by exists it, s1.
    + intros (-> & _). apply elem_of_cons. right.
      by apply list_elem_of_singleton.
Qed.

(** X4. [UpdateItem] succeeds exactly when the id is positive, the lookup
    finds an item, every present field is within its rule and [Update]
    succeeds on the item so changed; what it returns is the item [Update]
    returned, not the in-memory copy. *)
Theorem UpdateItem_succeeds_iff
    `{Domain} {S : Type} (u : itemUsecase S) (id : Z) (input : UpdateItemInput)
    (s : S) (updated : Item) :
  outcome (UpdateItem u id input) s = Ok updated
  ↔ 0 < id ∧ valid_update input
    ∧ ∃ it s1 s2,
        FindByID (itemRepo u) id s = (Ok it, s1)
        ∧ Update (itemRepo u) (apply_update input it) s1 = (Ok updated, s2).
Proof.
  unfold outcome.
  destruct (UpdateItem_cases u id input s)
    as [[Hid ->]|[(Hid & err & s' & Hfind & ->)
       |[(Hid & it & s1 & bad & Hfind & Hbad & ->)
        |(Hid & it & s1 & Hfind & Hvalid & ->)]]]; simpl.
  - split; [done |]. intros [? _]. lia.
  - split; [done |]. intros (_ & _ & it & s1 & s2 & Hfound & _). congruence.
  - split; [done |]. intros (_ & Hvalid & _).
    apply first_violation_None in Hvalid. congruence.
  - destruct (Update (itemRepo u) (apply_update input it) s1)
      as [[x|err] s2] eqn:Hupdate; simpl.
    + split.
      * intros [= ->]. split; [done |]. split; [done |]. by exists it, s1, s2.
      * intros (_ & _ & it' & s1' & s2' & Hfound & Hdone).
        assert (it' = it ∧ s1' = s1) as [-> ->] by (split; congruence).
        congruence.
    + split; [done |].
      intros (_ & _ & it' & s1' & s2' & Hfound & Hdone).
      assert (it' = it ∧ s1' = s1) as [-> ->] by (split; congruence).
      congruence.
Qed.

(** X5. [DeleteItem] succeeds exactly when the id is positive, the lookup
    finds an item and [Delete] succeeds; the store is then the one [Delete]
    left. *)
Theorem DeleteItem_succeeds_iff
    `{Domain} {S : Type} (u : itemUsecase S) (id : Z) (s : S) :
  (outcome (DeleteItem u id) s = Ok ()
   ↔ 0 < id
     ∧ ∃ it s1 s2,
         FindByID (itemRepo u) id s = (Ok it, s1)
         ∧ Delete (itemRepo u) id s1 = (Ok (), s2))
  ∧ (∀ it s1 s2,
       0 < id →
       FindByID (itemRepo u) id s = (Ok it, s1) →
       Delete (itemRepo u) id s1 = (Ok (), s2) →
       final_store (DeleteItem u id) s = s2).
Proof.
  unfold outcome, final_store. split.
  - destruct (DeleteItem_cases u id s)
      as [[Hid ->]|[(Hid & err & s' & Hfind & ->)
         |(Hid & it & s1 & Hfind & ->)]]; simpl.
    + split; [done |]. intros [? _]. lia.
    + split; [done |]. intros (_ & it & s1 & s2 & Hfound & _). congruence.
    + destruct (Delete (itemRepo u) id s1) as [[[]|err] s2] eqn:Hdelete; simpl.
      * split; [| done]. intros _. split; [done |]. by exists it, s1, s2.
      * split; [done |]. intros (_ & it' & s1' & s2' & Hfound & Hdone).
        assert (s1' = s1) as -> by congruence. congruence.
  - intros it s1 s2 Hid Hfind Hdelete.
    by rewrite (DeleteItem_found _ _ _ _ _ Hid Hfind), Hdelete.
Qed.

(** X6. [GetItemByID] returns an item exactly when the id is positive and
    [FindByID] returns that item; [GetAllItems] returns a list exactly when
    [FindAll] returns that list, unchanged and in the same order. Each makes
    its one call and no other. *)
Theorem read_by_id_and_all_succeed_iff
    `{Domain} {S : Type} (u : itemUsecase S) (id : Z) (s : S) :
  (∀ it,
     outcome (GetItemByID u id) s = Ok it
     ↔ 0 < id ∧ ∃ s', FindByID (itemRepo u) id s = (Ok it, s'))
  ∧ (0 < id → calls (GetItemByID u id) s = [CallFindByID id])
  ∧ (∀ items,
       outcome (GetAllItems u) s = Ok items
       ↔ ∃ s', FindAll (itemRepo u) s = (Ok items, s'))
  ∧ calls (GetAllItems u) s = [CallFindAll].
Proof.
  unfold outcome, calls. split; [| split; [| split]].
  - intros it.
    destruct (GetItemByID_cases u id s)
      as [[Hid ->]|[(Hid & err & s' & Hfind & ->)
         |(Hid & it' & s' & Hfind & ->)]]; simpl.
    + split; [done |]. intros [? _]. lia.
    + split; [by destruct (IsNotFoundError err) |].
      intros (_ & s'' & Hfound). congruence.
    + split.
      * intros [= ->]. split; [done |]. by exists s'.
      * intros (_ & s'' & Hfound). congruence.
  - intros Hid.
    destruct (GetItemByID_cases u id s)
      as [[Hle _]|[(_ & err & s' & _ & ->)|(_ & it' & s' & _ & ->)]];
      [lia | done | done].
  - intros items. rewrite GetAllItems_run. simpl.
    destruct (FindAll (itemRepo u) s) as [[found|err] s']; simpl.
    + split; [intros [= ->]; by exists s' | intros [s'' [= ->]]; done].
    + split; [done | intros [s'' [=]]].
  - by rewrite GetAllItems_run.
Qed.

(** X7. [CreateItem] succeeds exactly when the constructor accepts the input
    and [Create] succeeds on the constructed item, and it returns the item
    [Create] returned. It never looks an item up. *)
Theorem CreateItem_succeeds_iff
    `{Domain} {S : Type} (u : itemUsecase S) (input : CreateItemInput) (s : S) :
  (∀ created,
     outcome (CreateItem u input) s = Ok created
     ↔ ∃ item s',
         NewItem (ciName input) (ciCategory input) (ciBrand input)
                 (ciPurchasePrice input) (ciPurchaseDate input) = Ok item
         ∧ Create (itemRepo u) item s = (Ok created, s'))
  ∧ Forall (λ c, ∃ item, c = CallCreate item) (calls (CreateItem u input) s)
  ∧ (length (calls (CreateItem u input) s) ≤ 1)%nat.
Proof.
  unfold outcome, calls. rewrite CreateItem_run.
  destruct (NewItem _ _ _ _ _) as [item|reason]; simpl.
  - split; [| split; [| done]].
    + intros created.
      destruct (Create (itemRepo u) item s) as [[made|err] s'] eqn:Hcreate;
        simpl.
      * split; [intros [= ->]; by exists item, s' |].
        intros (item' & s'' & [= <-] & Hmade). congruence.
      * split; [done |]. intros (item' & s'' & [= <-] & Hmade). congruence.
    + constructor; [by eexists | constructor].
  - split; [| split; [constructor | simpl; lia]].
    intros created. split; [done |]. intros (item & s' & [=] & _).
Qed.

(** X8. The bare sentinel [ErrInvalidInput] is what [GetItemByID],
    [UpdateItem] and [DeleteItem] return exactly when the id is not positive:
    every other error of theirs is [ErrItemNotFound] or carries a message. *)
Theorem bare_InvalidInput_iff_invalid_id
    `{Domain} {S : Type} (u : itemUsecase S) (id : Z) (s : S) :
  (outcome (GetItemByID u id) s = Err ErrInvalidInput ↔ id ≤ 0)
  ∧ (∀ input, outcome (UpdateItem u id input) s = Err ErrInvalidInput ↔ id ≤ 0)
  ∧ (outcome (DeleteItem u id) s = Err ErrInvalidInput ↔ id ≤ 0).
Proof.
  unfold outcome. split; [| split; [intros input |]].
  - destruct (GetItemByID_cases u id s)
      as [[Hid ->]|[(Hid & err & s' & Hfind & ->)
         |(Hid & it' & s' & Hfind & ->)]]; simpl.
    + done.
    + split; [by destruct (IsNotFoundError err) | lia].
    + split; [done | lia].
  - destruct (UpdateItem_cases u id input s)
      as [[Hid ->]|[(Hid & err & s' & Hfind & ->)
         |[(Hid & it & s1 & bad & Hfind & Hbad & ->)
          |(Hid & it & s1 & Hfind & Hvalid & ->)]]]; simpl.
    + done.
    + split; [by destruct (IsNotFoundError err) | lia].
    + split; [| lia]. intros [= ->].
      apply first_violation_invalid_input in Hbad.
      repeat (apply elem_of_cons in Hbad as [Hbad|Hbad]; [discriminate |]).
      by apply elem_of_nil in Hbad.
    + split; [| lia]. by destruct (Update _ _ _) as [[?|?] ?].
  - destruct (DeleteItem_cases u id s)
      as [[Hid ->]|[(Hid & err & s' & Hfind & ->)
         |(Hid & it & s1 & Hfind & ->)]]; simpl.
    + done.
    + split; [by destruct (IsNotFoundError err) | lia].
    + split; [| lia]. by destruct (Delete _ _ _) as [[[]|?] ?].
Qed.

(** ** What stays recognisable in a wrapped failure *)

Section Wrapping.
Context `{Domain}.

Lemma errors_Is_refl (err : error) : errors_Is err err = true.
Proof. destruct err; simpl; try reflexivity; by destruct (decide _). Qed.

Lemma errors_Is_Errorf (pre post : string) (err target : error) :
  (∀ msg inner, target ≠ wrapError msg inner) →
  errors_Is (Errorf pre err post) target = errors_Is err target.
Proof.
  intros Hbase. unfold Errorf. simpl.
  rewrite decide_False; [done |]. intros Heq. by eapply Hbase.
Qed.
End Wrapping.

(** X9. A failure of [FindAll], [Create], the mutation-phase [Update] or
    [Delete], or [GetSummaryByCategory] always fails the operation, and what
    [errors.Is] finds in the store's error it finds in the returned error: for
    every target that is not itself a wrapper (a sentinel or a base error),
    the returned error matches it exactly when the store's error does. *)
Theorem wrapped_failures_keep_errors_Is
    `{Domain} {S : Type} (u : itemUsecase S) (s : S) (target : error) :
  (∀ msg inner, target ≠ wrapError msg inner) →
  (∀ err s',
     FindAll (itemRepo u) s = (Err err, s') →
     ∃ e, outcome (GetAllItems u) s = Err e
          ∧ errors_Is e err = true
          ∧ errors_Is e target = errors_Is err target)
  ∧ (∀ input item err s',
       NewItem (ciName input) (ciCategory input) (ciBrand input)
               (ciPurchasePrice input) (ciPurchaseDate input) = Ok item →
       Create (itemRepo u) item s = (Err err, s') →
       ∃ e, outcome (CreateItem u input) s = Err e
            ∧ errors_Is e err = true
            ∧ errors_Is e target = errors_Is err target)
  ∧ (∀ id input it s1 err s2,
       0 < id → FindByID (itemRepo u) id s = (Ok it, s1) →
       valid_update input →
       Update (itemRepo u) (apply_update input it) s1 = (Err err, s2) →
       ∃ e, outcome (UpdateItem u id input) s = Err e
            ∧ errors_Is e err = true
            ∧ errors_Is e target = errors_Is err target)
  ∧ (∀ id it s1 err s2,
       0 < id → FindByID (itemRepo u) id s = (Ok it, s1) →
       Delete (itemRepo u) id s1 = (Err err, s2) →
       ∃ e, outcome (DeleteItem u id) s = Err e
            ∧ errors_Is e err = true
            ∧ errors_Is e target = errors_Is err target)
  ∧ (∀ err s',
       GetSummaryByCategory (itemRepo u) s = (Err err, s') →
       ∃ e, outcome (GetCategorySummary u) s = Err e
            ∧ errors_Is e err = true
            ∧ errors_Is e target = errors_Is err target).
Proof.
  intros Hbase.
  assert (Hkept : ∀ pre err,
    errors_Is (Errorf pre err "") err = true
    ∧ errors_Is (Errorf pre err "") target = errors_Is err target).
  { intros pre err. split; [| by apply errors_Is_Errorf].
    unfold Errorf. simpl. destruct (decide _); [done | apply errors_Is_refl]. }
  unfold outcome. split; [| split; [| split; [| split]]].
  - intros err s' Hall. exists (Errorf "failed to retrieve items: " err "").
    split; [| apply Hkept]. run_usecase. by rewrite Hall.
  - intros input item err s' Hnew Hcreate.
    exists (Errorf "failed to create item: " err "").
    split; [| apply Hkept]. run_usecase. by rewrite Hnew, Hcreate.
  - intros id input it s1 err s2 Hid Hfind Hvalid Hupdate.
    exists (Errorf "failed to update item: " err "").
    split; [| apply Hkept].
    by rewrite (UpdateItem_accepted _ _ _ _ _ _ Hid Hfind Hvalid), Hupdate.
  - intros id it s1 err s2 Hid Hfind Hdelete.
    exists (Errorf "failed to delete item: " err "").
    split; [| apply Hkept].
    by rewrite (DeleteItem_found _ _ _ _ _ Hid Hfind), Hdelete.
  - intros err s' Hsummary.
    exists (Errorf "failed to get category summary: " err "").
    split; [| apply Hkept]. run_usecase. by rewrite Hsummary.
Qed.

Lemma wrapped_failures_keep_errors_Is_witness :
  let raced := NewItemUsecase (vanishingRepo sampleItem rawNotFound) in
  (∀ msg inner, ErrItemNotFound ≠ wrapError msg inner)
  ∧ FindByID (itemRepo raced) 7 () = (Ok sampleItem, ())
  ∧ Delete (itemRepo raced) 7 () = (Err rawNotFound, ())
  ∧ ∃ e, outcome (DeleteItem raced 7) () = Err e
         ∧ errors_Is e rawNotFound = true
         ∧ errors_Is e ErrItemNotFound = errors_Is rawNotFound ErrItemNotFound.
Proof.
  intros raced.
  assert (Hbase : ∀ msg inner, ErrItemNotFound ≠ wrapError msg inner) by done.
  assert (Hid : 0 < 7) by lia.
  pose proof (wrapped_failures_keep_errors_Is (H := exampleDomain)
                raced () ErrItemNotFound Hbase) as (_ & _ & _ & Hdelete & _).
  split; [exact Hbase |]. do 2 (split; [reflexivity |]).
  exact (Hdelete 7 sampleItem () rawNotFound () Hid eq_refl eq_refl).
Defined.

(** ** The price rule and the items sent to the store *)

Section PriceRule.
Context `{Domain}.

Lemma update_failure_not_price_error (err : error) :
  Errorf "failed to update item: " err "" ≠ price_error.
Proof.
  unfold price_error, Errorf. intros [= Heq ->].
  apply (f_equal String.length) in Heq.
  rewrite !length_append in Heq. simpl in Heq. lia.
Qed.

Lemma first_violation_price (input : UpdateItemInput) (price : Z) :
  uiPurchasePrice input = Some price →
  from_option valid_text True (uiName input) →
  from_option valid_text True (uiBrand input) →
  first_violation input = Some price_error ↔ price < 0.
Proof.
  intros Hprice Hname Hbrand.
  unfold first_violation, text_violation, price_violation. rewrite Hprice.
  destruct (uiName input) as [name|], (uiBrand input) as [brand|];
    simpl in Hname, Hbrand;
    repeat match goal with
      | Hv : valid_text ?v |- _ =>
          apply valid_text_test in Hv; rewrite Hv; clear Hv
      end;
    destruct (Z.ltb_spec price 0); split; (done || lia).
Qed.

Lemma apply_update_valid (input : UpdateItemInput) (it : Item) :
  valid_update input → valid_item it → valid_item (apply_update input it).
Proof.
  intros (Hname & Hbrand & Hprice) (Hn & Hb & Hp). unfold valid_item. simpl.
  destruct input as [[name|] [brand|] [price|]]; simpl in *; done.
Qed.
End PriceRule.

(** X10. With the item found and the Name and Brand absent or accepted, a
    present PurchasePrice is refused with the price error exactly when it is
    negative: 0 is accepted. *)
Theorem UpdateItem_price_rule
    `{Domain} {S : Type} (u : itemUsecase S) (id : Z) (s s1 : S) (it : Item)
    (input : UpdateItemInput) (price : Z) :
  0 < id →
  FindByID (itemRepo u) id s = (Ok it, s1) →
  uiPurchasePrice input = Some price →
  from_option valid_text True (uiName input) →
  from_option valid_text True (uiBrand input) →
  (outcome (UpdateItem u id input) s = Err price_error ↔ price < 0)
  ∧ (0 ≤ price →
     calls (UpdateItem u id input) s
       = [CallFindByID id; CallUpdate (apply_update input it)]
     ∧ PurchasePrice (apply_update input it) = price).
Proof.
  intros Hid Hfind Hprice Hname Hbrand. split.
  - rewrite <- (first_violation_price input price Hprice Hname Hbrand).
    unfold outcome.
    destruct (first_violation input) as [bad|] eqn:Hbad.
    + rewrite (UpdateItem_rejected _ _ _ _ _ _ _ Hid Hfind Hbad). simpl.
      split; congruence.
    + pose proof Hbad as Hvalid. apply first_violation_None in Hvalid.
      rewrite (UpdateItem_accepted _ _ _ _ _ _ Hid Hfind Hvalid). simpl.
      destruct (Update _ _ _) as [[updated|err] s2]; simpl; split; try done.
      intros Heq. exfalso. apply (update_failure_not_price_error err). congruence.
  - intros Hprice0.
    assert (Hvalid : valid_update input).
    { split; [done |]. split; [done |]. by rewrite Hprice. }
    unfold calls. rewrite (UpdateItem_accepted _ _ _ _ _ _ Hid Hfind Hvalid).
    split; [done |]. simpl. by rewrite Hprice.
Qed.

Lemma UpdateItem_price_rule_witness :
  let u := NewItemUsecase (memRepo ErrItemNotFound) in
  let s : gmap Z Item := {[ 7 := sampleItem ]} in
  let free := mkUpdateItemInput None None (Some 0) in
  0 < 7
  ∧ FindByID (itemRepo u) 7 s = (Ok sampleItem, s)
  ∧ uiPurchasePrice free = Some 0
  ∧ calls (UpdateItem u 7 free) s
      = [CallFindByID 7; CallUpdate (apply_update free sampleItem)]
  ∧ PurchasePrice (apply_update free sampleItem) = 0.
Proof.
  intros u s free.
  assert (Hid : 0 < 7) by lia.
  assert (Hfind : FindByID (itemRepo u) 7 s = (Ok sampleItem, s)) by reflexivity.
  assert (Hprice : uiPurchasePrice free = Some 0) by reflexivity.
  pose proof (UpdateItem_price_rule (H := exampleDomain) u 7 s s sampleItem free 0
                Hid Hfind Hprice I I) as [_ Haccepted].
  split; [exact Hid |]. split; [exact Hfind |]. split; [exact Hprice |].
  apply Haccepted. lia.
Defined.

(** X11. If the item [FindByID] returns satisfies the rules on Name, Brand and
    PurchasePrice, so does every item [UpdateItem] passes to [Update]: an
    update never sends the store an item that breaks them. *)
Theorem UpdateItem_sends_valid_items
    `{Domain} {S : Type} (u : itemUsecase S) (id : Z) (input : UpdateItemInput)
    (s s1 : S) (fetched item : Item) :
  FindByID (itemRepo u) id s = (Ok fetched, s1) →
  valid_item fetched →
  CallUpdate item ∈ calls (UpdateItem u id input) s →
  valid_item item.
Proof.
  intros Hfind Hfetched. unfold calls.
  destruct (UpdateItem_cases u id input s)
    as [[Hid ->]|[(Hid & err & s' & Hfailed & ->)
       |[(Hid & it & s2 & bad & Hfound & Hbad & ->)
        |(Hid & it & s2 & Hfound & Hvalid & ->)]]]; simpl.
  - by intros ?%elem_of_nil.
  - by intros [=]%list_elem_of_singleton.
  - by intros [=]%list_elem_of_singleton.
  - intros [[=]|[= ->]%list_elem_of_singleton]%elem_of_cons.
    assert (it = fetched) as -> by congruence.
    by apply apply_update_valid.
Qed.

Lemma UpdateItem_sends_valid_items_witness :
  let u := NewItemUsecase (memRepo ErrItemNotFound) in
  let s : gmap Z Item := {[ 7 := sampleItem ]} in
  let input := mkUpdateItemInput (Some "tripod"%string) None (Some 300) in
  let item := mkItem 7 "tripod" "electronics" "acme" 300 "2024-01-15"
                     1700000000 1700000000 in
  FindByID (itemRepo u) 7 s = (Ok sampleItem, s)
  ∧ valid_item sampleItem
  ∧ CallUpdate item ∈ calls (UpdateItem u 7 input) s
  ∧ valid_item item.
Proof.
  intros u s input item.
  assert (Hfind : FindByID (itemRepo u) 7 s = (Ok sampleItem, s)) by reflexivity.
  assert (Hvalid : valid_item sampleItem)
    by (unfold valid_item, valid_text; simpl; lia).
  assert (Hcall : CallUpdate item ∈ calls (UpdateItem u 7 input) s).
  { apply elem_of_cons. right. apply elem_of_cons. by left. }
  split; [exact Hfind |]. split; [exact Hvalid |]. split; [exact Hcall |].
  exact (UpdateItem_sends_valid_items (H := exampleDomain) u 7 input s s
           sampleItem item Hfind Hvalid Hcall).
Defined.

(** ** More on the category summary *)

Section SummaryShape.
Implicit Types (counts : gmap string Z) (categories : list string).

Lemma fill_summary_agree counts1 counts2 categories :
  (∀ c, c ∈ categories → counts1 !! c = counts2 !! c) →
  fill_summary counts1 categories = fill_summary counts2 categories.
Proof.
  intros Hagree. apply map_eq. intros c. rewrite !fill_summary_lookup.
  destruct (decide (c ∈ categories)) as [Hin|]; [| done].
  by rewrite (Hagree c Hin).
Qed.

Lemma length_remove_dups_le categories :
  (length (remove_dups categories) ≤ length categories)%nat.
Proof.
  induction categories as [|c categories IH]; simpl; [done |].
  destruct (decide_rel elem_of c categories); simpl; lia.
Qed.

Lemma fill_summary_size counts categories :
  size (fill_summary counts categories) = length (remove_dups categories).
Proof.
  rewrite <- size_dom, fill_summary_dom.
  rewrite <- (size_list_to_set (C := gset string) (remove_dups categories))
    by apply NoDup_remove_dups.
  f_equal. apply set_eq. intros c.
  by rewrite !elem_of_list_to_set, elem_of_remove_dups.
Qed.

Lemma remove_dups_NoDup categories :
  NoDup categories → remove_dups categories = categories.
Proof.
  induction 1 as [|c categories Hc _ IH]; simpl; [done |].
  destruct (decide_rel elem_of c categories); [done | by rewrite IH].
Qed.
End SummaryShape.

(** X12. When the repository reports no counts at all, [GetCategorySummary]
    still succeeds: every valid category is listed with 0 and Total is 0. *)
Theorem GetCategorySummary_empty_counts
    `{Domain} {S : Type} (u : itemUsecase S) (s s' : S) :
  GetSummaryByCategory (itemRepo u) s = (Ok ∅, s') →
  ∃ summary,
    outcome (GetCategorySummary u) s = Ok summary
    ∧ Total summary = 0
    ∧ dom (Categories summary) = list_to_set GetValidCategories
    ∧ map_Forall (λ _ count, count = 0) (Categories summary).
Proof.
  intros Hcounts.
  exists {| Categories := fill_summary ∅ GetValidCategories;
            Total := sum_counts (map_to_list (∅ : gmap string Z)) |}.
  unfold outcome. rewrite (GetCategorySummary_run _ _ _ _ Hcounts). simpl.
  split; [done |]. split; [by rewrite map_to_list_empty |].
  split; [apply fill_summary_dom |].
  intros c count. rewrite fill_summary_lookup.
  destruct (decide (c ∈ GetValidCategories)); [| done].
  rewrite lookup_empty. by intros [= <-].
Qed.

Lemma GetCategorySummary_empty_counts_witness :
  let u := NewItemUsecase (countsRepo ∅) in
  GetSummaryByCategory (itemRepo u) () = (Ok ∅, ())
  ∧ outcome (GetCategorySummary u) ()
      = Ok {| Categories := {[ "electronics"%string := 0; "clothing"%string := 0 ]};
              Total := 0 |}
  ∧ ∃ summary,
      outcome (GetCategorySummary u) () = Ok summary
      ∧ Total summary = 0
      ∧ dom (Categories summary) = list_to_set GetValidCategories
      ∧ map_Forall (λ _ count, count = 0) (Categories summary).
Proof.
  intros u.
  assert (Hcounts : GetSummaryByCategory (itemRepo u) () = (Ok ∅, ()))
    by reflexivity.
  split; [exact Hcounts |]. split; [by vm_compute |].
  exact (GetCategorySummary_empty_counts (H := exampleDomain) u () () Hcounts).
Defined.

(** X13. The Categories map depends on the counts of the valid categories
    only: two repository results that agree on every valid category give the
    same Categories, whatever else they report. *)
Theorem Categories_ignore_other_categories
    `{Domain} {S1 S2 : Type} (u1 : itemUsecase S1) (u2 : itemUsecase S2)
    (s1 s1' : S1) (s2 s2' : S2) (counts1 counts2 : gmap string Z) :
  GetSummaryByCategory (itemRepo u1) s1 = (Ok counts1, s1') →
  GetSummaryByCategory (itemRepo u2) s2 = (Ok counts2, s2') →
  (∀ c, c ∈ GetValidCategories → counts1 !! c = counts2 !! c) →
  ∃ summary1 summary2,
    outcome (GetCategorySummary u1) s1 = Ok summary1
    ∧ outcome (GetCategorySummary u2) s2 = Ok summary2
    ∧ Categories summary1 = Categories summary2.
Proof.
  intros Hcounts1 Hcounts2 Hagree.
  exists {| Categories := fill_summary counts1 GetValidCategories;
            Total := sum_counts (map_to_list counts1) |},
         {| Categories := fill_summary counts2 GetValidCategories;
            Total := sum_counts (map_to_list counts2) |}.
  unfold outcome.
  rewrite (GetCategorySummary_run _ _ _ _ Hcounts1),
          (GetCategorySummary_run _ _ _ _ Hcounts2). simpl.
  split; [done |]. split; [done |]. by apply fill_summary_agree.
Qed.

Lemma Categories_ignore_other_categories_witness :
  let plain : gmap string Z := {[ "electronics"%string := 3 ]} in
  let stray : gmap string Z := {[ "electronics"%string := 3; "toys"%string := 2 ]} in
  let u1 := NewItemUsecase (countsRepo plain) in
  let u2 := NewItemUsecase (countsRepo stray) in
  (∀ c, c ∈ GetValidCategories → plain !! c = stray !! c)
  ∧ ∃ summary1 summary2,
      outcome (GetCategorySummary u1) () = Ok summary1
      ∧ outcome (GetCategorySummary u2) () = Ok summary2
      ∧ Categories summary1 = Categories summary2.
Proof.
  intros plain stray u1 u2.
  assert (Hagree : ∀ c, c ∈ GetValidCategories → plain !! c = stray !! c).
  { intros c Hc.
    apply elem_of_cons in Hc as [->|Hc]; [reflexivity |].
    apply list_elem_of_singleton in Hc as ->. reflexivity. }
  split; [exact Hagree |].
  exact (Categories_ignore_other_categories (H := exampleDomain) u1 u2
           () () () () plain stray eq_refl eq_refl Hagree).
Defined.

(** X14. The Categories map has one entry per distinct valid category: never
    more entries than the list of valid categories is long, and exactly that
    many when the list has no duplicate. *)
Theorem Categories_size
    `{Domain} {S : Type} (u : itemUsecase S) (s s' : S) (counts : gmap string Z) :
  GetSummaryByCategory (itemRepo u) s = (Ok counts, s') →
  ∃ summary,
    outcome (GetCategorySummary u) s = Ok summary
    ∧ size (Categories summary) = length (remove_dups GetValidCategories)
    ∧ (size (Categories summary) ≤ length GetValidCategories)%nat
    ∧ (NoDup GetValidCategories →
       size (Categories summary) = length GetValidCategories).
Proof.
  intros Hcounts.
  exists {| Categories := fill_summary counts GetValidCategories;
            Total := sum_counts (map_to_list counts) |}.
  unfold outcome. rewrite (GetCategorySummary_run _ _ _ _ Hcounts). simpl.
  rewrite fill_summary_size.
  split; [done |]. split; [done |].
  split; [apply length_remove_dups_le |].
  intros Hnodup. by rewrite remove_dups_NoDup.
Qed.

Lemma Categories_size_witness :
  let stray : gmap string Z := {[ "electronics"%string := 3; "toys"%string := 2 ]} in
  let u := NewItemUsecase (countsRepo stray) in
  GetSummaryByCategory (itemRepo u) () = (Ok stray, ())
  ∧ ∃ summary,
      outcome (GetCategorySummary u) () = Ok summary
      ∧ size (Categories summary) = length (remove_dups GetValidCategories)
      ∧ (size (Categories summary) ≤ length GetValidCategories)%nat
      ∧ (NoDup GetValidCategories →
         size (Categories summary) = length GetValidCategories).
Proof.
  intros stray u.
  assert (Hcounts : GetSummaryByCategory (itemRepo u) () = (Ok stray, ()))
    by reflexivity.
  split; [exact Hcounts |].
  exact (Categories_size (H := exampleDomain) u () () stray Hcounts).
Defined.

(** X15. Total is the sum of the Categories values plus the counts of the
    categories outside the valid set, as [int] addition computes it; with
    non-negative counts whose sum fits in [int], Total is therefore never below
    the sum of the Categories values, and the difference is exactly what the
    categories outside the valid set count. *)
Theorem Total_is_Categories_plus_the_rest
    `{Domain} {S : Type} (u : itemUsecase S) (s s' : S) (counts : gmap string Z) :
  GetSummaryByCategory (itemRepo u) s = (Ok counts, s') →
  ∃ summary,
    outcome (GetCategorySummary u) s = Ok summary
    ∧ Total summary
      = int_wrap (map_sum (Categories summary)
                  + map_sum (filter (λ entry, entry.1 ∉ GetValidCategories) counts))
    ∧ ((∀ k v, counts !! k = Some v → 0 ≤ v) →
       map_sum counts ≤ int_max →
       Total summary - map_sum (Categories summary)
         = map_sum (filter (λ entry, entry.1 ∉ GetValidCategories) counts)
       ∧ map_sum (Categories summary) ≤ Total summary).
Proof.
  intros Hcounts.
  exists {| Categories := fill_summary counts GetValidCategories;
            Total := sum_counts (map_to_list counts) |}.
  unfold outcome. rewrite (GetCategorySummary_run _ _ _ _ Hcounts). simpl.
  split; [done |]. rewrite Total_exact.
  pose proof (map_sum_split counts GetValidCategories) as Hsplit.
  split; [by rewrite Hsplit |].
  intros Hnonneg Hfit.
  pose proof (map_sum_nonneg counts Hnonneg).
  assert (0 ≤ map_sum (filter (λ entry, entry.1 ∉ GetValidCategories) counts)).
  { apply map_sum_nonneg. intros k v [Hkv _]%map_lookup_filter_Some.
    by apply (Hnonneg k). }
  rewrite int_wrap_in_range; [lia |]. int_constants. lia.
Qed.

Lemma Total_is_Categories_plus_the_rest_witness :
  let stray : gmap string Z := {[ "electronics"%string := 3; "toys"%string := 2 ]} in
  let u := NewItemUsecase (countsRepo stray) in
  GetSummaryByCategory (itemRepo u) () = (Ok stray, ())
  ∧ map_sum (filter (λ entry, entry.1 ∉ GetValidCategories) stray) = 2
  ∧ ∃ summary,
      outcome (GetCategorySummary u) () = Ok summary
      ∧ Total summary
        = int_wrap (map_sum (Categories summary)
                    + map_sum (filter (λ entry, entry.1 ∉ GetValidCategories) stray))
      ∧ ((∀ k v, stray !! k = Some v → 0 ≤ v) →
         map_sum stray ≤ int_max →
         Total summary - map_sum (Categories summary)
           = map_sum (filter (λ entry, entry.1 ∉ GetValidCategories) stray)
         ∧ map_sum (Categories summary) ≤ Total summary).
Proof.
  intros stray u.
  assert (Hcounts : GetSummaryByCategory (itemRepo u) () = (Ok stray, ()))
    by reflexivity.
  split; [exact Hcounts |]. split; [by vm_compute |].
  exact (Total_is_Categories_plus_the_rest (H := exampleDomain) u () () stray Hcounts).
Defined.

(** ** The operations on a store that behaves as a map *)

Section MemRepo.
Context `{Domain}.

Lemma max_id_insert (store : gmap Z Item) (id : Z) (it : Item) :
  store !! id = None →
  map_fold (λ id _ acc, Z.max id acc) 0 (<[id:=it]> store)
  = Z.max id (map_fold (λ id _ acc, Z.max id acc) 0 store).
Proof.
  intros Hfree. rewrite map_fold_insert_L; [done | | done]. intros. lia.
Qed.

Lemma max_id_bound (store : gmap Z Item) :
  0 ≤ map_fold (λ id _ acc, Z.max id acc) 0 store
  ∧ ∀ id, is_Some (store !! id) →
          id ≤ map_fold (λ id _ acc, Z.max id acc) 0 store.
Proof.
  induction store as [|k it store Hk [IH0 IH]] using map_ind.
  - rewrite map_fold_empty. split; [done |].
    intros id [? Hid]. by rewrite lookup_empty in Hid.
  - rewrite max_id_insert by done. split; [lia |].
    intros id Hid. destruct (decide (id = k)) as [->|Hne]; [lia |].
    rewrite lookup_insert_ne in Hid by done. specialize (IH id Hid). lia.
Qed.

Lemma next_id_free (store : gmap Z Item) :
  0 < next_id store ∧ store !! next_id store = None.
Proof.
  unfold next_id. destruct (max_id_bound store) as [H0 Hmax]. split; [lia |].
  destruct (store !! (1 + _)) as [it|] eqn:Hheld; [| done].
  assert (Hle := Hmax _ (mk_is_Some _ _ Hheld)). lia.
Qed.

Lemma memRepo_StoreLike (notFound : error) :
  IsNotFoundError notFound = true →
  StoreLike (memRepo notFound) (λ store, store).
Proof.
  intros Hnf. split.
  - by apply memRepo_MapLike.
  - intros store it old Hheld. simpl. rewrite Hheld.
    by exists it, (<[ID it := it]> store).
  - intros store it. simpl. destruct (next_id_free store) as [Hpos Hfree].
    by eexists _, _.
Qed.
End MemRepo.

Section OnAMap.
Context `{Domain} {S : Type}.
Implicit Types (u : itemUsecase S) (id : Z) (s : S) (it : Item).

Lemma GetItemByID_on_map u (items : S → gmap Z Item) id s :
  MapLike (itemRepo u) items → 0 < id →
  outcome (GetItemByID u id) s
    = match items s !! id with
      | Some it => Ok it
      | None => Err ErrItemNotFound
      end
  ∧ items (final_store (GetItemByID u id) s) = items s.
Proof.
  intros Hmap Hid. unfold outcome, final_store.
  destruct (items s !! id) as [it|] eqn:Hheld.
  - destruct (maplike_find_some _ _ Hmap s id it Hheld) as (s' & Hfind & Hsame).
    by rewrite (GetItemByID_found _ _ _ _ _ Hid Hfind).
  - destruct (maplike_find_none _ _ Hmap s id Hheld)
      as (err & s' & Hfind & Hnf & Hsame).
    by rewrite (GetItemByID_lookup_failed _ _ _ _ _ Hid Hfind), Hnf.
Qed.

Lemma DeleteItem_on_map u (items : S → gmap Z Item) id s :
  MapLike (itemRepo u) items → 0 < id →
  items (final_store (DeleteItem u id) s) = delete id (items s).
Proof.
  intros Hmap Hid. unfold final_store.
  destruct (items s !! id) as [it|] eqn:Hheld.
  - destruct (maplike_find_some _ _ Hmap s id it Hheld) as (s1 & Hfind & Hs1).
    rewrite <- Hs1 in Hheld.
    destruct (maplike_delete _ _ Hmap s1 id it Hheld) as (s2 & Hdelete & Hs2).
    rewrite (DeleteItem_found _ _ _ _ _ Hid Hfind), Hdelete. simpl.
    by rewrite Hs2, Hs1.
  - destruct (maplike_find_none _ _ Hmap s id Hheld)
      as (err & s' & Hfind & Hnf & Hsame).
    rewrite (DeleteItem_lookup_failed _ _ _ _ _ Hid Hfind). simpl.
    by rewrite Hsame, delete_id.
Qed.
End OnAMap.

(** X16. On a repository that behaves as a map, [GetItemByID] with a positive
    id is the lookup of the map: it returns the held item, or
    [ErrItemNotFound] when the id is not held, and leaves the map as it was. *)
Theorem GetItemByID_is_lookup
    `{Domain} {S : Type} (u : itemUsecase S) (items : S → gmap Z Item)
    (id : Z) (s : S) :
  MapLike (itemRepo u) items →
  0 < id →
  outcome (GetItemByID u id) s
    = match items s !! id with
      | Some it => Ok it
      | None => Err ErrItemNotFound
      end
  ∧ items (final_store (GetItemByID u id) s) = items s.
Proof. apply GetItemByID_on_map. Qed.

Lemma GetItemByID_is_lookup_witness :
  let u := NewItemUsecase (memRepo ErrItemNotFound) in
  let s : gmap Z Item := {[ 7 := sampleItem ]} in
  MapLike (itemRepo u) (λ store, store)
  ∧ 0 < 7
  ∧ outcome (GetItemByID u 7) s = Ok sampleItem
  ∧ final_store (GetItemByID u 7) s = s.
Proof.
  intros u s.
  assert (Hmap : MapLike (H := exampleDomain) (itemRepo u) (λ store, store))
    by (apply memRepo_MapLike; reflexivity).
  assert (Hid : 0 < 7) by lia.
  split; [exact Hmap |]. split; [exact Hid |].
  exact (GetItemByID_is_lookup (H := exampleDomain) u (λ store, store) 7 s
           Hmap Hid).
Defined.

(** X17. On a repository that behaves as a map, [DeleteItem] with a positive
    id removes that id and nothing else, whether or not it was held: the map is
    afterwards the old one without the id, and [GetItemByID] answers for every
    other id as it did before. *)
Theorem DeleteItem_removes_only_its_id
    `{Domain} {S : Type} (u : itemUsecase S) (items : S → gmap Z Item)
    (id : Z) (s : S) :
  MapLike (itemRepo u) items →
  0 < id →
  items (final_store (DeleteItem u id) s) = delete id (items s)
  ∧ ∀ id', 0 < id' → id' ≠ id →
      outcome (GetItemByID u id') (final_store (DeleteItem u id) s)
      = outcome (GetItemByID u id') s.
Proof.
  intros Hmap Hid.
  pose proof (DeleteItem_on_map u items id s Hmap Hid) as Hafter.
  split; [done |]. intros id' Hid' Hne.
  rewrite (proj1 (GetItemByID_on_map u items id' _ Hmap Hid')).
  rewrite (proj1 (GetItemByID_on_map u items id' s Hmap Hid')).
  by rewrite Hafter, lookup_delete_ne.
Qed.

Lemma DeleteItem_removes_only_its_id_witness :
  let u := NewItemUsecase (memRepo ErrItemNotFound) in
  let other := mkItem 9 "lamp" "electronics" "acme" 40 "2024-02-01" 0 0 in
  let s : gmap Z Item := {[ 7 := sampleItem; 9 := other ]} in
  MapLike (itemRepo u) (λ store, store)
  ∧ 0 < 7
  ∧ final_store (DeleteItem u 7) s = delete 7 s
  ∧ outcome (GetItemByID u 9) (final_store (DeleteItem u 7) s) = Ok other.
Proof.
  intros u other s.
  assert (Hmap : MapLike (H := exampleDomain) (itemRepo u) (λ store, store))
    by (apply memRepo_MapLike; reflexivity).
  assert (Hid : 0 < 7) by lia.
  pose proof (DeleteItem_removes_only_its_id (H := exampleDomain)
                u (λ store, store) 7 s Hmap Hid) as [Hafter Hothers].
  split; [exact Hmap |]. split; [exact Hid |]. split; [exact Hafter |].
  rewrite (Hothers 9); [reflexivity | lia | lia].
Defined.

Lemma refused_before_assignment_invalid (input : UpdateItemInput) :
  refused_before_assignment input → ¬ valid_update input.
Proof.
  unfold refused_before_assignment, valid_update.
  destruct input as [[name|] [brand|] [price|]]; simpl;
    try done; intros Hearly (Hname & Hbrand & Hprice); try done; lia.
Qed.

(** X18. On a store-like repository that holds an item under its own positive
    id, an [UpdateItem] with every present field within its rule succeeds, the
    map afterwards holds the returned item under that id and is otherwise
    unchanged, and a following [GetItemByID] returns that same item. *)
Theorem UpdateItem_then_GetItemByID
    `{Domain} {S : Type} (u : itemUsecase S) (items : S → gmap Z Item)
    (id : Z) (input : UpdateItemInput) (s : S) (it : Item) :
  StoreLike (itemRepo u) items →
  0 < id →
  items s !! id = Some it →
  ID it = id →
  valid_update input →
  ∃ updated,
    outcome (UpdateItem u id input) s = Ok updated
    ∧ ID updated = id
    ∧ items (final_store (UpdateItem u id input) s) = <[id := updated]> (items s)
    ∧ outcome (GetItemByID u id) (final_store (UpdateItem u id input) s)
        = Ok updated.
Proof.
  intros Hstore Hid Hheld Hkey Hvalid.
  pose proof (storelike_maplike _ _ Hstore) as Hmap.
  destruct (maplike_find_some _ _ Hmap s id it Hheld) as (s1 & Hfind & Hs1).
  assert (Hheld1 : items s1 !! ID (apply_update input it) = Some it)
    by (simpl; by rewrite Hkey, Hs1).
  destruct (storelike_update _ _ Hstore s1 (apply_update input it) it Hheld1)
    as (stored & s2 & Hupdate & Hstored & Hs2).
  simpl in Hstored, Hs2. rewrite Hkey in Hstored, Hs2.
  assert (Hrun : run (UpdateItem u id input) s
                 = (Ok stored,
                    (s2, [CallFindByID id; CallUpdate (apply_update input it)]))).
  { by rewrite (UpdateItem_accepted _ _ _ _ _ _ Hid Hfind Hvalid), Hupdate. }
  exists stored. unfold outcome at 1, final_store. rewrite Hrun. simpl.
  split; [done |]. split; [done |]. split; [by rewrite Hs2, Hs1 |].
  rewrite (proj1 (GetItemByID_on_map u items id s2 Hmap Hid)).
  by rewrite Hs2, lookup_insert_eq.
Qed.

Lemma UpdateItem_then_GetItemByID_witness :
  let u := NewItemUsecase (memRepo ErrItemNotFound) in
  let s : gmap Z Item := {[ 7 := sampleItem ]} in
  let input := mkUpdateItemInput (Some "tripod"%string) None (Some 300) in
  StoreLike (itemRepo u) (λ store, store)
  ∧ 0 < 7
  ∧ s !! 7 = Some sampleItem
  ∧ ID sampleItem = 7
  ∧ valid_update input
  ∧ ∃ updated,
      outcome (UpdateItem u 7 input) s = Ok updated
      ∧ ID updated = 7
      ∧ final_store (UpdateItem u 7 input) s = <[7 := updated]> s
      ∧ outcome (GetItemByID u 7) (final_store (UpdateItem u 7 input) s)
          = Ok updated.
Proof.
  intros u s input.
  assert (Hstore : StoreLike (H := exampleDomain) (itemRepo u) (λ store, store))
    by (apply memRepo_StoreLike; reflexivity).
  assert (Hid : 0 < 7) by lia.
  assert (Hheld : s !! 7 = Some sampleItem) by reflexivity.
  assert (Hkey : ID sampleItem = 7) by reflexivity.
  assert (Hvalid : valid_update input)
    by (unfold valid_update, valid_text; simpl; lia).
  split; [exact Hstore |]. split; [exact Hid |]. split; [exact Hheld |].
  split; [exact Hkey |]. split; [exact Hvalid |].
  exact (UpdateItem_then_GetItemByID (H := exampleDomain) u (λ store, store)
           7 input s sampleItem Hstore Hid Hheld Hkey Hvalid).
Defined.

(** X19. On a repository that behaves as a map, an [UpdateItem] that is
    refused before it has assigned any field — a non-positive id, an id that
    is not held, or the first present field outside its rule — returns an
    error and leaves the map exactly as it was. Nothing has been written
    through the fetched item by then, so this does not depend on whether
    [FindByID] hands out a copy. *)
Theorem UpdateItem_refused_before_assignment_changes_nothing
    `{Domain} {S : Type} (u : itemUsecase S) (items : S → gmap Z Item)
    (id : Z) (input : UpdateItemInput) (s : S) :
  MapLike (itemRepo u) items →
  id ≤ 0 ∨ items s !! id = None ∨ refused_before_assignment input →
  (∃ err, outcome (UpdateItem u id input) s = Err err)
  ∧ calls (UpdateItem u id input) s = (if id <=? 0 then [] else [CallFindByID id])
  ∧ items (final_store (UpdateItem u id input) s) = items s.
Proof.
  intros Hmap Hrefused. unfold outcome, calls, final_store.
  destruct (Z.leb_spec id 0) as [Hle|Hid].
  { rewrite (UpdateItem_invalid _ _ _ _ Hle). simpl. by eauto. }
  destruct (items s !! id) as [it|] eqn:Hheld.
  - destruct Hrefused as [?|[?|Hearly]]; [lia | done |].
    destruct (maplike_find_some _ _ Hmap s id it Hheld) as (s1 & Hfind & Hs1).
    apply refused_before_assignment_invalid, invalid_update_violation in Hearly
      as [bad Hbad].
    rewrite (UpdateItem_rejected _ _ _ _ _ _ _ Hid Hfind Hbad). simpl. by eauto.
  - destruct (maplike_find_none _ _ Hmap s id Hheld)
      as (err & s' & Hfind & Hnf & Hsame).
    rewrite (UpdateItem_lookup_failed _ _ _ _ _ _ Hid Hfind). simpl. by eauto.
Qed.

Lemma UpdateItem_refused_before_assignment_changes_nothing_witness :
  let u := NewItemUsecase (memRepo ErrItemNotFound) in
  let s : gmap Z Item := {[ 7 := sampleItem ]} in
  let input := mkUpdateItemInput None (Some ""%string) (Some 300) in
  MapLike (itemRepo u) (λ store, store)
  ∧ refused_before_assignment input
  ∧ (∃ err, outcome (UpdateItem u 7 input) s = Err err)
  ∧ calls (UpdateItem u 7 input) s = [CallFindByID 7]
  ∧ final_store (UpdateItem u 7 input) s = s.
Proof.
  intros u s input.
  assert (Hmap : MapLike (H := exampleDomain) (itemRepo u) (λ store, store))
    by (apply memRepo_MapLike; reflexivity).
  assert (Hearly : refused_before_assignment input)
    by (unfold refused_before_assignment, valid_text; simpl; lia).
  split; [exact Hmap |]. split; [exact Hearly |].
  exact (UpdateItem_refused_before_assignment_changes_nothing
           (H := exampleDomain) u (λ store, store) 7 input s Hmap
           (or_intror (or_intror Hearly))).
Defined.

(** X20. On a store-like repository, a [CreateItem] whose input the
    constructor accepts succeeds with an item under a positive id that was
    free; a following [GetItemByID] on that id returns it, and every id held
    before still answers as before. *)
Theorem CreateItem_then_GetItemByID
    `{Domain} {S : Type} (u : itemUsecase S) (items : S → gmap Z Item)
    (input : CreateItemInput) (s : S) (item : Item) :
  StoreLike (itemRepo u) items →
  NewItem (ciName input) (ciCategory input) (ciBrand input)
          (ciPurchasePrice input) (ciPurchaseDate input) = Ok item →
  ∃ created,
    outcome (CreateItem u input) s = Ok created
    ∧ 0 < ID created
    ∧ items s !! ID created = None
    ∧ items (final_store (CreateItem u input) s)
        = <[ID created := created]> (items s)
    ∧ outcome (GetItemByID u (ID created)) (final_store (CreateItem u input) s)
        = Ok created
    ∧ ∀ id, 0 < id → is_Some (items s !! id) →
        outcome (GetItemByID u id) (final_store (CreateItem u input) s)
        = outcome (GetItemByID u id) s.
Proof.
  intros Hstore Hnew.
  pose proof (storelike_maplike _ _ Hstore) as Hmap.
  destruct (storelike_create _ _ Hstore s item)
    as (created & s' & Hcreate & Hpos & Hfree & Hs').
  assert (Hrun : run (CreateItem u input) s
                 = (Ok created, (s', [CallCreate item]))).
  { by rewrite CreateItem_run, Hnew, Hcreate. }
  exists created. unfold outcome at 1, final_store. rewrite Hrun. simpl.
  split; [done |]. split; [done |]. split; [done |]. split; [done |]. split.
  - rewrite (proj1 (GetItemByID_on_map u items _ s' Hmap Hpos)).
    by rewrite Hs', lookup_insert_eq.
  - intros id Hid Hheld.
    rewrite (proj1 (GetItemByID_on_map u items id s' Hmap Hid)).
    rewrite (proj1 (GetItemByID_on_map u items id s Hmap Hid)).
    rewrite Hs', lookup_insert_ne; [done |].
    intros <-. rewrite Hfree in Hheld. by destruct Hheld.
Qed.

Lemma CreateItem_then_GetItemByID_witness :
  let u := NewItemUsecase (memRepo ErrItemNotFound) in
  let s : gmap Z Item := {[ 7 := sampleItem ]} in
  let input := mkCreateItemInput "lamp" "electronics" "acme" 10 "2024-01-15" in
  let item := mkItem 0 "lamp" "electronics" "acme" 10 "2024-01-15" 0 0 in
  StoreLike (itemRepo u) (λ store, store)
  ∧ NewItem (ciName input) (ciCategory input) (ciBrand input)
            (ciPurchasePrice input) (ciPurchaseDate input) = Ok item
  ∧ outcome (CreateItem u input) s
      = Ok (mkItem 8 "lamp" "electronics" "acme" 10 "2024-01-15" 0 0)
  ∧ ∃ created,
      outcome (CreateItem u input) s = Ok created
      ∧ 0 < ID created
      ∧ s !! ID created = None
      ∧ final_store (CreateItem u input) s = <[ID created := created]> s
      ∧ outcome (GetItemByID u (ID created)) (final_store (CreateItem u input) s)
          = Ok created
      ∧ ∀ id, 0 < id → is_Some (s !! id) →
          outcome (GetItemByID u id) (final_store (CreateItem u input) s)
          = outcome (GetItemByID u id) s.
Proof.
  intros u s input item.
  assert (Hstore : StoreLike (H := exampleDomain) (itemRepo u) (λ store, store))
    by (apply memRepo_StoreLike; reflexivity).
  assert (Hnew : NewItem (ciName input) (ciCategory input) (ciBrand input)
                   (ciPurchasePrice input) (ciPurchaseDate input) = Ok item)
    by reflexivity.
  split; [exact Hstore |]. split; [exact Hnew |]. split; [by vm_compute |].
  exact (CreateItem_then_GetItemByID (H := exampleDomain) u (λ store, store)
           input s item Hstore Hnew).
Defined.
